(** * Stock chart: technical indicators and chart interaction

    A shallow embedding of

      - [src/utils/technicalIndicators.ts]: [calculateSMA],
        [calculateBollingerBands], [calculateRSI], [calculateMACD] (with its
        local [calculateEMA]);
      - [src/hooks/useChartInteraction.ts]: the React hook's state and its
        handlers [handleWheel], [handleMouseDown], [handleMouseMove],
        [handleMouseUp], [handleKeyDown], [resetZoom], [deleteLine],
        [toggleDrawingMode].

    Number model.  A JavaScript [number] is modelled by an exact rational
    ([Q]): no rounding.  [===] on numbers is [Qeq_bool].  A period is a bar
    count ([nat]).  Division by a zero period has no rational counterpart
    (JavaScript gives NaN); the theorems about periods assume a positive one.
    The only array read past the end in the modelled code is in
    [calculateEMA] when there are fewer prices than the period; the cells of
    that function therefore range over [jsnum], which has a NaN. *)

From Stdlib Require Import String Ascii.
From Stdlib Require DecimalString.
From Stdlib Require Import List Arith ZArith QArith Qminmax Qround Qabs.
From Stdlib Require Import Lia Lqa Bool.
Import ListNotations.

Open Scope Q_scope.

(** ** Data model *)

(** [StockData] of [types/stockTypes.ts], the fields the engine reads. *)
Record StockData : Type := mkStockData {
  date : string;
  open : Q;
  high : Q;
  low : Q;
  close : Q;
  volume : Q
}.

(** [a < b] on numbers. *)
Definition Qlt_bool (a b : Q) : bool := negb (Qle_bool b a).

(** [x as number] on a cell of a [(number | null)[]]; in arithmetic
    JavaScript reads [null] as 0. *)
Definition asNumber (c : option Q) : Q :=
  match c with Some v => v | None => 0 end.

(** A [number] holding a count or an index. *)
Definition num (n : nat) : Q := inject_Z (Z.of_nat n).

(** [data[k].close].  Every read of the modelled loops is in range (lemmas
    below), so the default is never returned. *)
Definition closeAt (data : list StockData) (k : nat) : Q :=
  nth k (map close data) 0.

(** ** calculateSMA *)

(** [for i in 0 .. data.length-1]: [null] while [i < period - 1], otherwise
    [sum / period] with [sum] accumulated over [j = 0 .. period-1] of
    [data[i - j].close]. *)
Definition calculateSMA (data : list StockData) (period : nat)
  : list (option Q) :=
  map (fun i =>
         if (i <? period - 1)%nat then None
         else
           let sum :=
             fold_left (fun sum j => sum + closeAt data (i - j))
                       (seq 0 period) 0 in
           Some (sum / num period))
      (seq 0 (length data)).

(** ** calculateBollingerBands *)

Record BollingerBands : Type := mkBollingerBands {
  upper : list (option Q);
  middle : list (option Q);
  lower : list (option Q)
}.

Section Bollinger.

(** [Math.sqrt], a function of the host; the claims about the bands do
    not depend on which function it is. *)
Variable sqrt : Q -> Q.

(** One turn of the loop over [i]: the cells pushed on [upper] and on
    [lower]. *)
Definition bollingerCells (data : list StockData)
           (middle : list (option Q)) (period : nat) (stdDev : Q) (i : nat)
  : option Q * option Q :=
  if (i <? period - 1)%nat then (None, None)
  else
    let sum :=
      fold_left
        (fun sum j =>
           let middleValue := asNumber (nth i middle None) in
           sum + (closeAt data (i - j) - middleValue) ^ 2)
        (seq 0 period) 0 in
    let std := sqrt (sum / num period) in
    (Some (asNumber (nth i middle None) + stdDev * std),
     Some (asNumber (nth i middle None) - stdDev * std)).

Definition calculateBollingerBands (data : list StockData) (period : nat)
           (stdDev : Q) : BollingerBands :=
  let middle := calculateSMA data period in
  let cells :=
    map (bollingerCells data middle period stdDev)
        (seq 0 (length data)) in
  {| upper := map fst cells; middle := middle; lower := map snd cells |}.

End Bollinger.

(** ** calculateRSI *)

(** [rs] and [currentRsi] from the two averages: the zero guard on
    [avgLoss] substitutes 0.001. *)
Definition rsiOf (avgGain avgLoss : Q) : Q :=
  let rs := avgGain / (if Qeq_bool avgLoss 0 then 1 # 1000 else avgLoss) in
  100 - 100 / (1 + rs).

(** The seeding loop over the first [period] changes: a change that is not
    positive goes to the losses with its absolute value. *)
Definition rsiSeedStep (changes : list Q) (st : Q * Q) (i : nat) : Q * Q :=
  let '(avgGain, avgLoss) := st in
  if Qlt_bool 0 (nth i changes 0)
  then (avgGain + nth i changes 0, avgLoss)
  else (avgGain, avgLoss + Qabs (nth i changes 0)).

Definition rsiSeed (changes : list Q) (period : nat) : Q * Q :=
  fold_left (rsiSeedStep changes) (seq 0 period) (0, 0).

(** One turn of the smoothing loop: the new averages and the pushed value. *)
Definition rsiStep (changes : list Q) (period : nat)
           (st : list (option Q) * (Q * Q)) (i : nat)
  : list (option Q) * (Q * Q) :=
  let '(rsi, (avgGain, avgLoss)) := st in
  let change := nth i changes 0 in
  let gain := if Qlt_bool 0 change then change else 0 in
  let loss := if Qlt_bool change 0 then Qabs change else 0 in
  let avgGain := (avgGain * (num period - 1) + gain) / num period in
  let avgLoss := (avgLoss * (num period - 1) + loss) / num period in
  (rsi ++ [Some (rsiOf avgGain avgLoss)], (avgGain, avgLoss)).

Definition calculateRSI (data : list StockData) (period : nat)
  : list (option Q) :=
  if (length data <=? period)%nat then map (fun _ => None) data
  else
    let changes :=
      map (fun i => closeAt data i - closeAt data (i - 1))
          (seq 1 (length data - 1)) in
    let rsi := repeat None period in
    let '(avgGain, avgLoss) := rsiSeed changes period in
    let avgGain := avgGain / num period in
    let avgLoss := avgLoss / num period in
    let rsi := rsi ++ [Some (rsiOf avgGain avgLoss)] in
    fst (fold_left (rsiStep changes period)
                   (seq period (length changes - period))
                   (rsi, (avgGain, avgLoss))).

(** ** calculateMACD *)

(** A [number] that may be NaN: reading past the end of an array gives
    [undefined], which arithmetic turns into NaN. *)
Inductive jsnum : Type :=
| Num (q : Q)
| NaN.

Definition jadd (a b : jsnum) : jsnum :=
  match a, b with Num x, Num y => Num (x + y) | _, _ => NaN end.

Definition jsub (a b : jsnum) : jsnum :=
  match a, b with Num x, Num y => Num (x - y) | _, _ => NaN end.

Definition jmul (a b : jsnum) : jsnum :=
  match a, b with Num x, Num y => Num (x * y) | _, _ => NaN end.

(** The only division on cells is [sum / period]; a zero period comes with
    an empty sum and 0/0 is NaN. *)
Definition jdiv (a b : jsnum) : jsnum :=
  match a, b with
  | Num x, Num y => if Qeq_bool y 0 then NaN else Num (x / y)
  | _, _ => NaN
  end.

(** [prices[i]] used as an operand: NaN past the end. *)
Definition priceAt (prices : list jsnum) (i : nat) : jsnum :=
  nth i prices NaN.

(** A cell of a [(number | null)[]] read as an operand of [!== null] and of
    arithmetic: an absent cell is [undefined], which is not [null] and
    computes as NaN. *)
Definition cellAt (cells : list (option jsnum)) (i : Z) : option jsnum :=
  if (i <? 0)%Z then Some NaN else nth (Z.to_nat i) cells (Some NaN).

(** The local [calculateEMA].  The seeding loop pushes [period] nulls while
    summing [prices[0 .. period-1]]; [ema[period - 1] = sum / period]
    overwrites the last of them (with [period = 0] there is no such cell and
    the value lands on the property [-1], which the first turn of the second
    loop reads back as [ema[i - 1]]).  In the second loop [ema[i - 1]] is the
    cell written last, carried here as [prev]. *)
Definition calculateEMA (prices : list jsnum) (period : nat)
  : list (option jsnum) :=
  let multiplier := Num (2 / (num period + 1)) in
  let sum :=
    fold_left (fun sum i => jadd sum (priceAt prices i))
              (seq 0 period) (Num 0) in
  let seed := jdiv sum (Num (num period)) in
  let ema :=
    match period with
    | O => []
    | S k => repeat None k ++ [Some seed]
    end in
  fst (fold_left
         (fun '(ema, prev) i =>
            let next :=
              jadd (jmul (jsub (priceAt prices i) prev) multiplier) prev in
            (ema ++ [Some next], next))
         (seq period (length prices - period))
         (ema, seed)).

Record MACD : Type := mkMACD {
  macdLine : list (option jsnum);
  signalLine : list (option jsnum);
  histogram : list (option jsnum)
}.

(** The non-null cells of the MACD line, in order. *)
Definition macdLineValuesOf (macdLine : list (option jsnum)) : list jsnum :=
  flat_map (fun c => match c with Some v => [v] | None => [] end) macdLine.

(** One turn of the alignment loop, with the running [signalIndex]. *)
Definition alignStep (signalEMA : list (option jsnum)) (signalPeriod : nat)
           (st : list (option jsnum) * nat) (cell : option jsnum)
  : list (option jsnum) * nat :=
  let '(signalLine, signalIndex) := st in
  match cell with
  | None => (signalLine ++ [None], signalIndex)
  | Some _ =>
      if (Z.of_nat signalIndex <? Z.of_nat signalPeriod - 1)%Z
      then (signalLine ++ [None], S signalIndex)
      else
        (signalLine ++
           [cellAt signalEMA
                   (Z.of_nat signalIndex - (Z.of_nat signalPeriod - 1))],
         S signalIndex)
  end.

Definition calculateMACD (data : list StockData)
           (fastPeriod slowPeriod signalPeriod : nat) : MACD :=
  let closePrices := map (fun d => Num (close d)) data in
  let fastEMA := calculateEMA closePrices fastPeriod in
  let slowEMA := calculateEMA closePrices slowPeriod in
  let macdLine :=
    map (fun i =>
           if (i <? slowPeriod - 1)%nat then None
           else
             match cellAt fastEMA (Z.of_nat i), cellAt slowEMA (Z.of_nat i)
             with
             | Some fastValue, Some slowValue =>
                 Some (jsub fastValue slowValue)
             | _, _ => None
             end)
        (seq 0 (length closePrices)) in
  let macdLineValues := macdLineValuesOf macdLine in
  let signalEMA := calculateEMA macdLineValues signalPeriod in
  let signalLine :=
    fst (fold_left (alignStep signalEMA signalPeriod) macdLine ([], O)) in
  let histogram :=
    map (fun i =>
           match nth i macdLine None, nth i signalLine None with
           | Some m, Some s => Some (jsub m s)
           | _, _ => None
           end)
        (seq 0 (length macdLine)) in
  {| macdLine := macdLine; signalLine := signalLine; histogram := histogram |}.

(** ** Specification-level vocabulary *)

Definition Qsum (l : list Q) : Q := fold_right Qplus 0 l.

(** Arithmetic mean of a list of numbers. *)
Definition mean (l : list Q) : Q := Qsum l / num (length l).

(** The trailing window of [p] values ending at index [i], inclusive. *)
Definition trailing (p i : nat) (l : list Q) : list Q :=
  firstn p (skipn (i + 1 - p) l).

Definition closes (data : list StockData) : list Q := map close data.

(** Population variance: the mean of the squared deviations from the mean,
    denominator the number of values. *)
Definition popVariance (l : list Q) : Q :=
  Qsum (map (fun c => (c - mean l) ^ 2) l) / num (length l).

(** Close-to-close changes of a series. *)
Fixpoint closeChanges (l : list Q) : list Q :=
  match l with
  | [] => []
  | a :: t =>
      match t with
      | [] => []
      | b :: _ => (b - a) :: closeChanges t
      end
  end.

(** The gain and the loss carried by one change. *)
Definition gainOf (c : Q) : Q := if Qlt_bool 0 c then c else 0.
Definition lossOf (c : Q) : Q := if Qlt_bool c 0 then - c else 0.

(** Wilder smoothing of an average with the current value. *)
Definition wilder (p : nat) (avg current : Q) : Q :=
  (avg * (num p - 1) + current) / num p.

(** The smoothed averages [k] steps after the seed: the seed is the simple
    mean over the first [p] values, each later step smooths with the value
    at position [p + k]. *)
Fixpoint wilderAvg (p : nat) (values : list Q) (k : nat) : Q :=
  match k with
  | O => Qsum (firstn p values) / num p
  | S k' => wilder p (wilderAvg p values k') (nth (p + k') values 0)
  end.

(** RSI from the two averages, a zero average loss replaced by 0.001. *)
Definition rsiFormula (avgGain avgLoss : Q) : Q :=
  let rs := avgGain / (if Qeq_bool avgLoss 0 then 1 # 1000 else avgLoss) in
  100 - 100 / (1 + rs).

(** The averages the smoothing loop holds after [k] turns. *)
Definition rsiAverages (changes : list Q) (period : nat) (k : nat) : Q * Q :=
  let '(avgGain, avgLoss) := rsiSeed changes period in
  snd (fold_left (rsiStep changes period) (seq period k)
                 ([], (avgGain / num period, avgLoss / num period))).

(** The alignment loop as a recursion on the MACD line, [n] the number of
    non-null cells met so far (the [signalIndex] of the source). *)
Fixpoint alignFrom (signalEMA : list (option jsnum)) (signalPeriod : nat)
         (n : nat) (macdLine : list (option jsnum)) : list (option jsnum) :=
  match macdLine with
  | [] => []
  | None :: rest => None :: alignFrom signalEMA signalPeriod n rest
  | Some _ :: rest =>
      (if (Z.of_nat n <? Z.of_nat signalPeriod - 1)%Z then None
       else cellAt signalEMA (Z.of_nat n - (Z.of_nat signalPeriod - 1)))
        :: alignFrom signalEMA signalPeriod (S n) rest
  end.

(** A bar whose four prices are [c]. *)
Definition bar (c : Q) : StockData :=
  {| date := EmptyString; open := c; high := c; low := c; close := c;
     volume := 0 |}.

(** The number of non-null MACD cells before index [i]. *)
Definition validBefore (macdLine : list (option jsnum)) (i : nat) : nat :=
  length (macdLineValuesOf (firstn i macdLine)).

(** 50 bars with closes 100 + i * i. *)
Definition curvedBars : list StockData :=
  map (fun i => bar (100 + num (i * i))) (seq 0 50).

(** * The chart interaction hook *)

(** ** State *)

Inductive DrawingMode : Type := trendline | horizontalline.

Definition DrawingMode_eqb (a b : DrawingMode) : bool :=
  match a, b with
  | trendline, trendline => true
  | horizontalline, horizontalline => true
  | _, _ => false
  end.

Inductive ChartStyleType : Type := candlestick | line | ohlc | area.

(** [{ index, price }], a point in data coordinates. *)
Record Point : Type := mkPoint {
  index : Q;
  price : Q
}.

(** [DrawingLine] of [types/stockTypes.ts]. *)
Record DrawingLine : Type := mkDrawingLine {
  id : string;
  type : DrawingMode;
  startIndex : Q;
  startPrice : Q;
  endIndex : Q;
  endPrice : Q;
  color : string
}.

(** The props of the hook ([stockData], [xAxisDomain] with its setter, the
    arguments [updateVisibleData] was last called with) and its [useState]
    cells. *)
Record ChartState : Type := mkChartState {
  stockData : list StockData;
  xAxisDomain : option (Q * Q);
  visibleData : option (Q * Q);
  isDragging : bool;
  dragStartX : option Q;
  showCrosshair : bool;
  drawingMode : option DrawingMode;
  drawingLines : list DrawingLine;
  drawingStart : option Point;
  drawingEnd : option Point;
  selectedLine : option string;
  chartStyle : ChartStyleType;
  showKeyboardShortcuts : bool
}.

Definition lineColors : list string :=
  ["#FF5722"; "#2196F3"; "#4CAF50"; "#9C27B0"; "#E91E63"]%string.

(** The state of a freshly mounted hook over [bars]. *)
Definition initialState (bars : list StockData) : ChartState :=
  {| stockData := bars; xAxisDomain := None; visibleData := None;
     isDragging := false; dragStartX := None; showCrosshair := true;
     drawingMode := None; drawingLines := []; drawingStart := None;
     drawingEnd := None; selectedLine := None; chartStyle := candlestick;
     showKeyboardShortcuts := false |}.

(** ** Setters *)

Definition setDrawingMode (m : option DrawingMode) (s : ChartState)
  : ChartState :=
  {| stockData := stockData s; xAxisDomain := xAxisDomain s;
     visibleData := visibleData s; isDragging := isDragging s;
     dragStartX := dragStartX s; showCrosshair := showCrosshair s;
     drawingMode := m; drawingLines := drawingLines s;
     drawingStart := drawingStart s; drawingEnd := drawingEnd s;
     selectedLine := selectedLine s; chartStyle := chartStyle s;
     showKeyboardShortcuts := showKeyboardShortcuts s |}.

Definition setDrawingLines (l : list DrawingLine) (s : ChartState)
  : ChartState :=
  {| stockData := stockData s; xAxisDomain := xAxisDomain s;
     visibleData := visibleData s; isDragging := isDragging s;
     dragStartX := dragStartX s; showCrosshair := showCrosshair s;
     drawingMode := drawingMode s; drawingLines := l;
     drawingStart := drawingStart s; drawingEnd := drawingEnd s;
     selectedLine := selectedLine s; chartStyle := chartStyle s;
     showKeyboardShortcuts := showKeyboardShortcuts s |}.

Definition setDrawingStart (p : option Point) (s : ChartState) : ChartState :=
  {| stockData := stockData s; xAxisDomain := xAxisDomain s;
     visibleData := visibleData s; isDragging := isDragging s;
     dragStartX := dragStartX s; showCrosshair := showCrosshair s;
     drawingMode := drawingMode s; drawingLines := drawingLines s;
     drawingStart := p; drawingEnd := drawingEnd s;
     selectedLine := selectedLine s; chartStyle := chartStyle s;
     showKeyboardShortcuts := showKeyboardShortcuts s |}.

Definition setDrawingEnd (p : option Point) (s : ChartState) : ChartState :=
  {| stockData := stockData s; xAxisDomain := xAxisDomain s;
     visibleData := visibleData s; isDragging := isDragging s;
     dragStartX := dragStartX s; showCrosshair := showCrosshair s;
     drawingMode := drawingMode s; drawingLines := drawingLines s;
     drawingStart := drawingStart s; drawingEnd := p;
     selectedLine := selectedLine s; chartStyle := chartStyle s;
     showKeyboardShortcuts := showKeyboardShortcuts s |}.

Definition setSelectedLine (l : option string) (s : ChartState) : ChartState :=
  {| stockData := stockData s; xAxisDomain := xAxisDomain s;
     visibleData := visibleData s; isDragging := isDragging s;
     dragStartX := dragStartX s; showCrosshair := showCrosshair s;
     drawingMode := drawingMode s; drawingLines := drawingLines s;
     drawingStart := drawingStart s; drawingEnd := drawingEnd s;
     selectedLine := l; chartStyle := chartStyle s;
     showKeyboardShortcuts := showKeyboardShortcuts s |}.

Definition setIsDragging (b : bool) (s : ChartState) : ChartState :=
  {| stockData := stockData s; xAxisDomain := xAxisDomain s;
     visibleData := visibleData s; isDragging := b;
     dragStartX := dragStartX s; showCrosshair := showCrosshair s;
     drawingMode := drawingMode s; drawingLines := drawingLines s;
     drawingStart := drawingStart s; drawingEnd := drawingEnd s;
     selectedLine := selectedLine s; chartStyle := chartStyle s;
     showKeyboardShortcuts := showKeyboardShortcuts s |}.

Definition setDragStartX (x : option Q) (s : ChartState) : ChartState :=
  {| stockData := stockData s; xAxisDomain := xAxisDomain s;
     visibleData := visibleData s; isDragging := isDragging s;
     dragStartX := x; showCrosshair := showCrosshair s;
     drawingMode := drawingMode s; drawingLines := drawingLines s;
     drawingStart := drawingStart s; drawingEnd := drawingEnd s;
     selectedLine := selectedLine s; chartStyle := chartStyle s;
     showKeyboardShortcuts := showKeyboardShortcuts s |}.

Definition setShowCrosshair (b : bool) (s : ChartState) : ChartState :=
  {| stockData := stockData s; xAxisDomain := xAxisDomain s;
     visibleData := visibleData s; isDragging := isDragging s;
     dragStartX := dragStartX s; showCrosshair := b;
     drawingMode := drawingMode s; drawingLines := drawingLines s;
     drawingStart := drawingStart s; drawingEnd := drawingEnd s;
     selectedLine := selectedLine s; chartStyle := chartStyle s;
     showKeyboardShortcuts := showKeyboardShortcuts s |}.

Definition setChartStyle (c : ChartStyleType) (s : ChartState) : ChartState :=
  {| stockData := stockData s; xAxisDomain := xAxisDomain s;
     visibleData := visibleData s; isDragging := isDragging s;
     dragStartX := dragStartX s; showCrosshair := showCrosshair s;
     drawingMode := drawingMode s; drawingLines := drawingLines s;
     drawingStart := drawingStart s; drawingEnd := drawingEnd s;
     selectedLine := selectedLine s; chartStyle := c;
     showKeyboardShortcuts := showKeyboardShortcuts s |}.

Definition setShowKeyboardShortcuts (b : bool) (s : ChartState)
  : ChartState :=
  {| stockData := stockData s; xAxisDomain := xAxisDomain s;
     visibleData := visibleData s; isDragging := isDragging s;
     dragStartX := dragStartX s; showCrosshair := showCrosshair s;
     drawingMode := drawingMode s; drawingLines := drawingLines s;
     drawingStart := drawingStart s; drawingEnd := drawingEnd s;
     selectedLine := selectedLine s; chartStyle := chartStyle s;
     showKeyboardShortcuts := b |}.

Definition setXAxisDomain (d : option (Q * Q)) (s : ChartState)
  : ChartState :=
  {| stockData := stockData s; xAxisDomain := d;
     visibleData := visibleData s; isDragging := isDragging s;
     dragStartX := dragStartX s; showCrosshair := showCrosshair s;
     drawingMode := drawingMode s; drawingLines := drawingLines s;
     drawingStart := drawingStart s; drawingEnd := drawingEnd s;
     selectedLine := selectedLine s; chartStyle := chartStyle s;
     showKeyboardShortcuts := showKeyboardShortcuts s |}.

(** [updateVisibleData(start, end)]: the parent slices the bars from
    [Math.floor(start)] to [Math.ceil(end)]; the state keeps the arguments
    of the last call. *)
Definition updateVisibleData (a b : Q) (s : ChartState) : ChartState :=
  {| stockData := stockData s; xAxisDomain := xAxisDomain s;
     visibleData := Some (a, b); isDragging := isDragging s;
     dragStartX := dragStartX s; showCrosshair := showCrosshair s;
     drawingMode := drawingMode s; drawingLines := drawingLines s;
     drawingStart := drawingStart s; drawingEnd := drawingEnd s;
     selectedLine := selectedLine s; chartStyle := chartStyle s;
     showKeyboardShortcuts := showKeyboardShortcuts s |}.

(** [setXAxisDomain([a, b]); updateVisibleData(a, b)]. *)
Definition showDomain (a b : Q) (s : ChartState) : ChartState :=
  updateVisibleData a b (setXAxisDomain (Some (a, b)) s).

(** [stockData.length] as a number. *)
Definition barCount (s : ChartState) : Q := num (length (stockData s)).

(** ** Small handlers *)

Definition toggleCrosshair (s : ChartState) : ChartState :=
  setShowCrosshair (negb (showCrosshair s)) s.

Definition mode_eqb (a b : option DrawingMode) : bool :=
  match a, b with
  | None, None => true
  | Some x, Some y => DrawingMode_eqb x y
  | _, _ => false
  end.

(** [setDrawingMode(drawingMode === mode ? null : mode)]. *)
Definition toggleDrawingMode (mode : option DrawingMode) (s : ChartState)
  : ChartState :=
  setDrawingMode (if mode_eqb (drawingMode s) mode then None else mode) s.

(** [setXAxisDomain(null); updateVisibleData(0, stockData.length - 1)]. *)
Definition resetZoom (s : ChartState) : ChartState :=
  updateVisibleData 0 (barCount s - 1) (setXAxisDomain None s).

(** [setDrawingLines(drawingLines.filter(line => line.id !== id));
    setSelectedLine(null)]. *)
Definition deleteLine (lineId : string) (s : ChartState) : ChartState :=
  setSelectedLine None
    (setDrawingLines
       (filter (fun line => negb (String.eqb (id line) lineId))
               (drawingLines s))
       s).

(** ** Viewport arithmetic *)

(** The body of [handleWheel] between reading the current range and the
    setters, for [N] bars, the range [[start, endV]], the [zoomFactor] and
    the pointer ratio [center]. *)
Definition wheelDomain (N start endV zoomFactor center : Q) : Q * Q :=
  let range := endV - start in
  let newRange := Qmax 5 (Qmin N (range * zoomFactor)) in
  let newStart := Qmax 0 (start + (range - newRange) * center) in
  let newEnd := Qmin (N - 1) (newStart + newRange) in
  let newStart :=
    if Qeq_bool newEnd (N - 1) then Qmax 0 (newEnd - newRange)
    else newStart in
  (newStart, newEnd).

(** [e.deltaY > 0 ? 1.1 : 0.9]. *)
Definition zoomFactorOf (deltaY : Q) : Q :=
  if Qlt_bool 0 deltaY then 11 # 10 else 9 # 10.

(** The drag pan of [handleMouseMove]: the domain moved by [moveDelta]. *)
Definition dragDomain (N : Q) (domain : Q * Q) (moveRatio : Q) : Q * Q :=
  let domainRange := snd domain - fst domain in
  let moveDelta := moveRatio * domainRange in
  let newStart := Qmax 0 (fst domain + moveDelta) in
  let newEnd := Qmin (N - 1) (snd domain + moveDelta) in
  if Qeq_bool newStart 0 then
    (newStart, Qmin (N - 1) (newStart + domainRange))
  else if Qeq_bool newEnd (N - 1) then
    (Qmax 0 (newEnd - domainRange), newEnd)
  else (newStart, newEnd).

(** ArrowLeft: the new domain, or [None] when the guard
    [newEnd <= stockData.length - 1] fails and nothing is set. *)
Definition arrowLeftDomain (N : Q) (domain : Q * Q) : option (Q * Q) :=
  let domainRange := snd domain - fst domain in
  let panAmount := domainRange * (1 # 10) in
  let newStart := Qmax 0 (fst domain - panAmount) in
  let newEnd := newStart + domainRange in
  if Qle_bool newEnd (N - 1) then Some (newStart, newEnd) else None.

(** ArrowRight: the new domain, or [None] when the guard [newStart >= 0]
    fails. *)
Definition arrowRightDomain (N : Q) (domain : Q * Q) : option (Q * Q) :=
  let domainRange := snd domain - fst domain in
  let panAmount := domainRange * (1 # 10) in
  let newEnd := Qmin (N - 1) (snd domain + panAmount) in
  let newStart := newEnd - domainRange in
  if Qle_bool 0 newStart then Some (newStart, newEnd) else None.

(** The keys + and -: the range scaled by [factor] (0.8 or 1.2) about its
    own centre. *)
Definition keyZoomDomain (N : Q) (domain : Q * Q) (factor : Q) : Q * Q :=
  let start := fst domain in
  let endV := snd domain in
  let range := endV - start in
  let newRange := range * factor in
  let center := (start + endV) / 2 in
  let newStart := Qmax 0 (center - newRange / 2) in
  let newEnd := Qmin (N - 1) (center + newRange / 2) in
  (newStart, newEnd).

(** ** Events *)

Record WheelEvent : Type := mkWheelEvent {
  deltaY : Q;
  offsetX : Q;           (* e.nativeEvent.offsetX *)
  targetWidth : Q        (* e.currentTarget.clientWidth *)
}.

(** What [chartRef.current] gives when it is mounted: its bounding
    rectangle and its [clientWidth]. *)
Record ChartElement : Type := mkChartElement {
  rectLeft : Q;
  rectTop : Q;
  rectWidth : Q;
  rectHeight : Q;
  clientWidth : Q
}.

(** A mouse event, with the element behind [chartRef.current] when the
    handler runs and the clock [Date.now()]. *)
Record MouseEvent : Type := mkMouseEvent {
  clientX : Q;
  clientY : Q;
  chartRef : option ChartElement;
  now : Z
}.

(** ** handleWheel *)

Definition handleWheel (e : WheelEvent) (s : ChartState) : ChartState :=
  if (length (stockData s) =? 0)%nat then s
  else
    let start := match xAxisDomain s with Some d => fst d | None => 0 end in
    let endV :=
      match xAxisDomain s with
      | Some d => snd d
      | None => barCount s - 1
      end in
    let center := offsetX e / targetWidth e in
    let '(newStart, newEnd) :=
      wheelDomain (barCount s) start endV (zoomFactorOf (deltaY e)) center in
    showDomain newStart newEnd s.

(** ** Pointer to data coordinates *)

(** [Math.round]. *)
Definition round (x : Q) : Q := inject_Z (Qfloor (x + (1 # 2))).

(** The data point under the pointer, as [handleMouseDown] and
    [handleMouseMove] both compute it; the price range is the placeholder
    [[0, 1000]] of the source. *)
Definition pointerPoint (s : ChartState) (rect : ChartElement)
           (e : MouseEvent) : Point :=
  let relativeX := clientX e - rectLeft rect in
  let relativeY := clientY e - rectTop rect in
  let chartWidth := rectWidth rect in
  let chartHeight := rectHeight rect in
  let visibleStartIndex :=
    match xAxisDomain s with
    | Some d => inject_Z (Qfloor (fst d))
    | None => 0
    end in
  let visibleEndIndex :=
    match xAxisDomain s with
    | Some d => inject_Z (Qceiling (snd d))
    | None => barCount s - 1
    end in
  let visibleRange := visibleEndIndex - visibleStartIndex in
  let indexPosition :=
    visibleStartIndex + (relativeX / chartWidth) * visibleRange in
  let indexRounded := round indexPosition in
  let minPrice := 0 in
  let maxPrice := 1000 in
  let priceRange := maxPrice - minPrice in
  let price := maxPrice - (relativeY / chartHeight) * priceRange in
  {| index := indexRounded; price := price |}.

(** ** handleMouseDown *)

Definition handleMouseDown (e : MouseEvent) (s : ChartState) : ChartState :=
  match drawingMode s with
  | Some _ =>
      match chartRef e with
      | None => s
      | Some rect =>
          setDrawingEnd None (setDrawingStart (Some (pointerPoint s rect e)) s)
      end
  | None => setDragStartX (Some (clientX e)) (setIsDragging true s)
  end.

(** ** handleMouseMove *)

Definition handleMouseMove (e : MouseEvent) (s : ChartState) : ChartState :=
  match drawingMode s, drawingStart s with
  | Some mode, Some start =>
      match chartRef e with
      | None => s
      | Some rect =>
          let p := pointerPoint s rect e in
          match mode with
          | horizontalline =>
              setDrawingEnd
                (Some {| index := index p; price := price start |}) s
          | trendline =>
              setDrawingEnd (Some {| index := index p; price := price p |}) s
          end
      end
  | _, _ =>
      match isDragging s, dragStartX s, xAxisDomain s with
      | true, Some startX, Some domain =>
          (* chartRef.current?.clientWidth || 1 *)
          let chartWidth :=
            match chartRef e with
            | Some el =>
                if Qeq_bool (clientWidth el) 0 then 1 else clientWidth el
            | None => 1
            end in
          let moveRatio := (startX - clientX e) / chartWidth in
          let '(newStart, newEnd) :=
            dragDomain (barCount s) domain moveRatio in
          setDragStartX (Some (clientX e)) (showDomain newStart newEnd s)
      | _, _, _ => s
      end
  end.

(** ** handleMouseUp *)

(** [`line-${Date.now()}`]. *)
Definition lineIdAt (t : Z) : string :=
  ("line-" ++ DecimalString.NilZero.string_of_int (Z.to_int t))%string.

Definition handleMouseUp (e : MouseEvent) (s : ChartState) : ChartState :=
  match drawingMode s, drawingStart s, drawingEnd s with
  | Some mode, Some start, Some endP =>
      let newLine :=
        {| id := lineIdAt (now e);
           type := mode;
           startIndex := index start;
           startPrice := price start;
           endIndex := index endP;
           endPrice := price endP;
           color :=
             nth (length (drawingLines s) mod length lineColors)
                 lineColors EmptyString |} in
      setDrawingEnd None
        (setDrawingStart None
           (setDrawingLines (drawingLines s ++ [newLine]) s))
  | _, _, _ => setDragStartX None (setIsDragging false s)
  end.

(** ** handleKeyDown *)

Definition handleKeyDown (key : string) (s : ChartState) : ChartState :=
  if String.eqb key "ArrowLeft" then
    match xAxisDomain s with
    | Some domain =>
        match arrowLeftDomain (barCount s) domain with
        | Some (newStart, newEnd) => showDomain newStart newEnd s
        | None => s
        end
    | None => s
    end
  else if String.eqb key "ArrowRight" then
    match xAxisDomain s with
    | Some domain =>
        match arrowRightDomain (barCount s) domain with
        | Some (newStart, newEnd) => showDomain newStart newEnd s
        | None => s
        end
    | None => s
    end
  else if String.eqb key "+" || String.eqb key "=" then
    match xAxisDomain s with
    | Some domain =>
        let '(newStart, newEnd) :=
          keyZoomDomain (barCount s) domain (8 # 10) in
        showDomain newStart newEnd s
    | None => s
    end
  else if String.eqb key "-" || String.eqb key "_" then
    match xAxisDomain s with
    | Some domain =>
        let '(newStart, newEnd) :=
          keyZoomDomain (barCount s) domain (12 # 10) in
        showDomain newStart newEnd s
    | None => s
    end
  else if String.eqb key "Escape" then
    setDrawingMode None (resetZoom s)
  else if String.eqb key "c" then toggleCrosshair s
  else if String.eqb key "t" then
    toggleDrawingMode
      (if mode_eqb (drawingMode s) (Some trendline) then None
       else Some trendline) s
  else if String.eqb key "h" then
    toggleDrawingMode
      (if mode_eqb (drawingMode s) (Some horizontalline) then None
       else Some horizontalline) s
  else if String.eqb key "1" then setChartStyle candlestick s
  else if String.eqb key "2" then setChartStyle ohlc s
  else if String.eqb key "3" then setChartStyle line s
  else if String.eqb key "4" then setChartStyle area s
  else if String.eqb key "?" then
    setShowKeyboardShortcuts (negb (showKeyboardShortcuts s)) s
  else s.

(** ** Events of the host, and runs *)

Inductive Event : Type :=
| Wheel (e : WheelEvent)
| MouseDown (e : MouseEvent)
| MouseMove (e : MouseEvent)
| MouseUp (e : MouseEvent)
| KeyDown (key : string)
| DeleteLine (lineId : string).

Definition step (s : ChartState) (ev : Event) : ChartState :=
  match ev with
  | Wheel e => handleWheel e s
  | MouseDown e => handleMouseDown e s
  | MouseMove e => handleMouseMove e s
  | MouseUp e => handleMouseUp e s
  | KeyDown key => handleKeyDown key s
  | DeleteLine lineId => deleteLine lineId s
  end.

(** Each handler runs to completion before the next event is dispatched. *)
Definition run (s : ChartState) (events : list Event) : ChartState :=
  fold_left step events s.

(** ** Specification-level vocabulary of the hook *)

(** [removes lineId before after]: [after] is [before] with the lines
    whose id is [lineId] taken out, the others kept in their order. *)
Inductive removes (lineId : string)
  : list DrawingLine -> list DrawingLine -> Prop :=
| removes_nil : removes lineId [] []
| removes_drop (l : DrawingLine) (rest rest' : list DrawingLine) :
    id l = lineId -> removes lineId rest rest' ->
    removes lineId (l :: rest) rest'
| removes_keep (l : DrawingLine) (rest rest' : list DrawingLine) :
    id l <> lineId -> removes lineId rest rest' ->
    removes lineId (l :: rest) (l :: rest').

(** The viewport invariant for [N] bars: [0 <= start <= end <= N - 1] and
    [end - start >= 5]. *)
Definition validDomain (N : Q) (d : Q * Q) : Prop :=
  0 <= fst d /\ fst d <= snd d /\ snd d <= N - 1 /\ 5 <= snd d - fst d.


(** A wheel step on [[start, endV]] that no clamp touches: the scaled range
    stays within [[5, N]] and neither bound saturates. *)
Definition unclamped (N start endV zoomFactor center : Q) : Prop :=
  let range := endV - start in
  let newRange := range * zoomFactor in
  5 <= newRange /\ newRange <= N /\
  0 <= start + (range - newRange) * center /\
  start + (range - newRange) * center + newRange <= N - 1.




(** No event of the run activates a drawing mode: the keys t and h are
    absent. *)
Definition keepsModeOff (ev : Event) : Prop :=
  match ev with
  | KeyDown key => key <> "t"%string /\ key <> "h"%string
  | _ => True
  end.

(** ** Concrete bars and events *)

(** [n] bars with closes 100, 101, ... *)
Definition risingBars (n : nat) : list StockData :=
  map (fun i => bar (100 + num i)) (seq 0 n).

(** A chart element 800 by 400 at the origin. *)
Definition chart800 : ChartElement :=
  {| rectLeft := 0; rectTop := 0; rectWidth := 800; rectHeight := 400;
     clientWidth := 800 |}.

Definition mouseAt (x y : Q) (t : Z) : MouseEvent :=
  {| clientX := x; clientY := y; chartRef := Some chart800; now := t |}.

(** A trendline being drawn over 30 bars: the t key, a pointer down and a
    pointer move. *)
Definition drawingTrend : ChartState :=
  run (initialState (risingBars 30))
      [KeyDown "t"; MouseDown (mouseAt 100 100 0);
       MouseMove (mouseAt 300 200 0)].


(** The visible range: the domain, or the full range when it is unset. *)
Definition domainNow (s : ChartState) : Q * Q :=
  match xAxisDomain s with
  | Some d => d
  | None => (0, barCount s - 1)
  end.

(** A wheel turn towards the user (zoom in) and away (zoom out), pointer
    at the middle of a chart 800 wide. *)
Definition wheelIn : WheelEvent :=
  {| deltaY := -100; offsetX := 400; targetWidth := 800 |}.
Definition wheelOut : WheelEvent :=
  {| deltaY := 100; offsetX := 400; targetWidth := 800 |}.

(** 8 bars after four zoom-in turns of the wheel: the range has reached
    its minimum of 5. *)
Definition zoomedIn : ChartState :=
  run (initialState (risingBars 8)) (repeat (Wheel wheelIn) 4).

(** 200 bars showing the range [[50, 150]]. *)
Definition range50to150 : ChartState :=
  showDomain 50 150 (initialState (risingBars 200)).

(** The width of the visible range. *)
Definition domainWidth (s : ChartState) : Q :=
  snd (domainNow s) - fst (domainNow s).

(** The pointer ratio of a wheel event. *)
Definition anchorRatio (e : WheelEvent) : Q := offsetX e / targetWidth e.

(** A square root on rationals, exact on the squares of rationals, to run
    [calculateBollingerBands] on concrete bars. *)
Definition sqrtFloor (q : Q) : Q :=
  Z.sqrt (Qnum (Qred q)) # Pos.sqrt (Qden (Qred q)).

(** Bars given by their closes. *)
Definition barsOf (l : list Q) : list StockData := map bar l.

(** The horizontal mode activated, then one gesture: down, move, up. *)
Definition horizontalGesture : list Event :=
  [KeyDown "h"; MouseDown (mouseAt 100 100 0);
   MouseMove (mouseAt 300 200 0); MouseUp (mouseAt 300 200 7)].

Definition twoBars : list StockData := barsOf [1; 3].
Definition fourBars : list StockData := barsOf [1; 2; 4; 3].
Definition sixBars : list StockData := barsOf [1; 2; 4; 8; 16; 32].

(** * Further vocabulary *)

(** Every value of the list lies in [[lo, hi]]. *)
Definition allBetween (lo hi : Q) (l : list Q) : Prop :=
  Forall (fun c => lo <= c /\ c <= hi) l.

(** A cell value that is a number in [[lo, hi]]. *)
Definition inRange (lo hi : Q) (x : jsnum) : Prop :=
  match x with
  | Num q => lo <= q /\ q <= hi
  | NaN => False
  end.

(** A cell that is null or a number in [[lo, hi]]. *)
Definition nullOrInRange (lo hi : Q) (c : option jsnum) : Prop :=
  match c with
  | None => True
  | Some x => inRange lo hi x
  end.

(** The midpoint of the visible range. *)
Definition domainMid (s : ChartState) : Q :=
  (fst (domainNow s) + snd (domainNow s)) / 2.

(** The bar index under the pointer ratio [c] of the visible range. *)
Definition anchorIndex (s : ChartState) (c : Q) : Q :=
  fst (domainNow s) + c * domainWidth s.

(** The line a pointer-up commits from the provisional points. *)
Definition committedLine (mode : DrawingMode) (start endP : Point) (t : Z)
           (count : nat) : DrawingLine :=
  {| id := lineIdAt t; type := mode;
     startIndex := index start; startPrice := price start;
     endIndex := index endP; endPrice := price endP;
     color := nth (count mod 5) lineColors EmptyString |}.

(** The provisional end point a pointer move sets: the data point under the
    pointer, with the start point's price in the horizontal mode. *)
Definition provisionalEnd (mode : DrawingMode) (start p : Point) : Point :=
  match mode with
  | horizontalline => {| index := index p; price := price start |}
  | trendline => {| index := index p; price := price p |}
  end.

(** Every line has the palette colour of its position in the collection. *)
Definition coloursByPosition (lines : list DrawingLine) : Prop :=
  forall i l, nth_error lines i = Some l ->
              color l = nth (i mod 5) lineColors EmptyString.

Definition isDelete (ev : Event) : bool :=
  match ev with
  | DeleteLine _ => true
  | _ => false
  end.

(** ** updateVisibleData of the data hook *)

(** A relative index of [Array.prototype.slice]: a negative one counts from
    the end, and both ends are clamped to the array. *)
Definition sliceIndex (len i : Z) : Z :=
  if (i <? 0)%Z then Z.max (len + i) 0 else Z.min i len.

(** [l.slice(startI, endI)]. *)
Definition jsSlice {A : Type} (l : list A) (startI endI : Z) : list A :=
  let len := Z.of_nat (length l) in
  let k := sliceIndex len startI in
  let final := sliceIndex len endI in
  firstn (Z.to_nat (final - k)) (skipn (Z.to_nat k) l).

(** The bars [updateVisibleData(start, end)] of [hooks/useStockData.ts]
    makes visible: [data.slice(Math.floor(start), Math.ceil(end) + 1)]. *)
Definition visibleSlice {A : Type} (data : list A) (start endV : Q)
  : list A :=
  let startIndex := Qfloor start in
  let endIndex := Qceiling endV in
  jsSlice data startIndex (endIndex + 1).

(** ** The exponential moving average, by its recurrence *)

(** The EMA [k] steps after its seed: the seed is the simple mean of the
    first [period] prices, each step is
    [(price - ema) * (2 / (period + 1)) + ema] with the next price. *)
Fixpoint emaOf (prices : list Q) (period : nat) (k : nat) : Q :=
  match k with
  | O => mean (firstn period prices)
  | S k' =>
      (nth (period + k') prices 0 - emaOf prices period k')
        * (2 / (num period + 1))
      + emaOf prices period k'
  end.

(** The numbers the second loop of [calculateEMA] pushes from index [a]
    on, [n] of them, starting from [prev]. *)
Fixpoint emaRun (prices : list Q) (m prev : Q) (a n : nat) : list Q :=
  match n with
  | O => []
  | S n' =>
      let next := (nth a prices 0 - prev) * m + prev in
      next :: emaRun prices m next (S a) n'
  end.

(** ** More concrete inputs *)

Definition flatBars : list StockData := barsOf [7; 7; 7; 7; 7].
Definition fallingBars : list StockData := barsOf [5; 4; 4; 3].
Definition threePrices : list jsnum := [Num 1; Num 3; Num 2].
Definition fourPrices : list Q := [1; 2; 4; 8].

(** 30 bars with the trendline mode activated. *)
Definition trendMode : ChartState :=
  handleKeyDown "t" (initialState (risingBars 30)).

(** 200 bars showing [[50, 150]] with a pan begun at x = 100. *)
Definition panning : ChartState :=
  handleMouseDown (mouseAt 100 100 0) range50to150.

(** * Theorems *)

(** ** Sums and windows *)

Lemma num_pos (n : nat) : (0 < n)%nat -> 0 < num n.
Proof.
  intros H. unfold num, Qlt. simpl. lia.
Qed.

Lemma num_nonzero (n : nat) : (0 < n)%nat -> ~ num n == 0.
Proof.
  intros H E. apply num_pos in H. rewrite E in H. discriminate.
Qed.

Lemma num_S (n : nat) : num (S n) == num n + 1.
Proof.
  unfold num. rewrite Nat2Z.inj_succ, <- Z.add_1_r, inject_Z_plus.
  reflexivity.
Qed.

Lemma nth_error_Some_lt {A : Type} (l : list A) (i : nat) (x : A) :
  nth_error l i = Some x -> (i < length l)%nat.
Proof.
  intros H. apply nth_error_Some. rewrite H. discriminate.
Qed.

Lemma fold_left_Qplus {A : Type} (f : A -> Q) (l : list A) (a : Q) :
  fold_left (fun s j => s + f j) l a == a + Qsum (map f l).
Proof.
  revert a. induction l as [|x l IH]; intros a; simpl.
  - ring.
  - rewrite IH. ring.
Qed.

Lemma Qsum_app (l1 l2 : list Q) : Qsum (l1 ++ l2) == Qsum l1 + Qsum l2.
Proof.
  induction l1 as [|x l1 IH]; simpl.
  - ring.
  - rewrite IH. ring.
Qed.

Lemma Qsum_rev (l : list Q) : Qsum (rev l) == Qsum l.
Proof.
  induction l as [|x l IH]; simpl.
  - reflexivity.
  - rewrite Qsum_app, IH. simpl. ring.
Qed.

Lemma firstn_skipn_seq {A : Type} (d : A) (l : list A) (a p : nat) :
  (a + p <= length l)%nat ->
  firstn p (skipn a l) = map (fun k => nth k l d) (seq a p).
Proof.
  revert a l. induction p as [|p IH]; intros a l H.
  - reflexivity.
  - simpl seq. simpl map.
    destruct (skipn a l) as [|x r] eqn:E.
    + assert (length (skipn a l) = 0%nat) by (rewrite E; reflexivity).
      rewrite length_skipn in H0. lia.
    + simpl. f_equal.
      * assert (N : nth a l d = nth 0 (skipn a l) d).
        { rewrite nth_skipn. f_equal. lia. }
        rewrite N, E. reflexivity.
      * rewrite <- (IH (S a) l) by lia.
        f_equal.
        assert (S : skipn (S a) l = skipn 1 (skipn a l)).
        { rewrite skipn_skipn. f_equal. }
        rewrite S, E. reflexivity.
Qed.

(** Reading a window backwards from its last index lists it reversed. *)
Lemma backwards_window {A : Type} (f : nat -> A) (a p : nat) :
  map (fun j => f (a + p - 1 - j)%nat) (seq 0 p) = rev (map f (seq a p)).
Proof.
  revert a. induction p as [|p IH]; intros a.
  - reflexivity.
  - rewrite (seq_S p a), map_app, rev_app_distr. simpl rev. simpl app.
    simpl seq. simpl map. f_equal.
    + f_equal. lia.
    + rewrite <- seq_shift, map_map, <- IH.
      apply map_ext_in. intros j Hj. apply in_seq in Hj. f_equal. lia.
Qed.

(** The sum the loop over [j] accumulates is the sum of the trailing
    window. *)
Lemma trailing_sum (data : list StockData) (p i : nat) :
  (0 < p)%nat -> (p - 1 <= i)%nat -> (i < length data)%nat ->
  fold_left (fun sum j => sum + closeAt data (i - j)) (seq 0 p) 0
  == Qsum (trailing p i (closes data)).
Proof.
  intros Hp Hi Hlen.
  rewrite (fold_left_Qplus (fun j => closeAt data (i - j))).
  unfold trailing, closes.
  rewrite (firstn_skipn_seq 0) by (rewrite length_map; lia).
  rewrite <- (Qsum_rev (map _ (seq (i + 1 - p) p))).
  rewrite <- backwards_window.
  rewrite Qplus_0_l.
  assert (E : map (fun j => closeAt data (i - j)) (seq 0 p)
              = map (fun j => nth (i + 1 - p + p - 1 - j) (map close data) 0)
                    (seq 0 p)).
  { apply map_ext_in. intros j Hj. apply in_seq in Hj.
    unfold closeAt. f_equal. lia. }
  rewrite E. reflexivity.
Qed.

Lemma trailing_length (p i : nat) (l : list Q) :
  (0 < p)%nat -> (p - 1 <= i)%nat -> (i < length l)%nat ->
  length (trailing p i l) = p.
Proof.
  intros Hp Hi Hl. unfold trailing.
  rewrite length_firstn, length_skipn. lia.
Qed.

(** ** calculateSMA *)

Lemma calculateSMA_length (data : list StockData) (period : nat) :
  length (calculateSMA data period) = length data.
Proof.
  unfold calculateSMA. rewrite length_map, length_seq. reflexivity.
Qed.

Lemma calculateSMA_nth (data : list StockData) (period i : nat) :
  (i < length data)%nat ->
  nth_error (calculateSMA data period) i =
  Some (if (i <? period - 1)%nat then None
        else Some (fold_left (fun sum j => sum + closeAt data (i - j))
                             (seq 0 period) 0 / num period)).
Proof.
  intros H. unfold calculateSMA.
  rewrite nth_error_map, nth_error_nth' with (d := O)
    by (rewrite length_seq; exact H).
  rewrite seq_nth by exact H. reflexivity.
Qed.

Lemma calculateSMA_warmup (data : list StockData) (period i : nat) :
  (i < length data)%nat -> (i < period - 1)%nat ->
  nth_error (calculateSMA data period) i = Some None.
Proof.
  intros Hl Hi. rewrite calculateSMA_nth by exact Hl.
  apply Nat.ltb_lt in Hi. rewrite Hi. reflexivity.
Qed.

Lemma calculateSMA_defined (data : list StockData) (period i : nat) :
  (0 < period)%nat -> (period - 1 <= i)%nat -> (i < length data)%nat ->
  exists v,
    nth_error (calculateSMA data period) i = Some (Some v) /\
    v == mean (trailing period i (closes data)).
Proof.
  intros Hp Hi Hl. rewrite calculateSMA_nth by exact Hl.
  assert (B : (i <? period - 1)%nat = false) by (apply Nat.ltb_ge; exact Hi).
  rewrite B. eexists. split; [reflexivity|].
  unfold mean.
  rewrite trailing_length by (unfold closes; rewrite ?length_map; lia).
  rewrite trailing_sum by assumption. reflexivity.
Qed.

(** C4.  For every bar sequence and every period [p >= 1], [calculateSMA]
    returns an array as long as the bars whose entry [i] is null exactly
    when [i < p - 1] and is otherwise the arithmetic mean of the closes of
    the trailing [p] bars ending at [i]; on 25 bars with [p = 20], indices
    0..18 are null and index 19 is the mean of closes 0..19. *)
Theorem C4_calculateSMA_spec (data : list StockData) (p : nat) :
  (1 <= p)%nat ->
  length (calculateSMA data p) = length data /\
  (forall i, (i < length data)%nat ->
     (nth_error (calculateSMA data p) i = Some None <-> (i < p - 1)%nat) /\
     ((p - 1 <= i)%nat ->
      exists v, nth_error (calculateSMA data p) i = Some (Some v) /\
                v == mean (trailing p i (closes data)))) /\
  (length data = 25%nat ->
   (forall i, (i <= 18)%nat ->
      nth_error (calculateSMA data 20) i = Some None) /\
   exists v, nth_error (calculateSMA data 20) 19 = Some (Some v) /\
             v == mean (firstn 20 (closes data))).
Proof.
  intros Hp. split; [apply calculateSMA_length|]. split.
  - intros i Hl. split.
    + split.
      * intros E. destruct (Nat.lt_ge_cases i (p - 1)) as [L|G]; [exact L|].
        destruct (calculateSMA_defined data p i) as [v [Hv _]]; try lia.
        rewrite Hv in E. discriminate.
      * apply calculateSMA_warmup. exact Hl.
    + intros G. apply calculateSMA_defined; lia.
  - intros L. split.
    + intros i Hi. apply calculateSMA_warmup; simpl; lia.
    + destruct (calculateSMA_defined data 20 19) as [v [Hv Hm]];
        try (simpl; lia).
      exists v. split; [exact Hv|]. exact Hm.
Qed.

(** ** calculateBollingerBands *)

Lemma backwards_closes (data : list StockData) (p i : nat) :
  (0 < p)%nat -> (p - 1 <= i)%nat -> (i < length data)%nat ->
  map (fun j => closeAt data (i - j)) (seq 0 p)
  = rev (trailing p i (closes data)).
Proof.
  intros Hp Hi Hlen. unfold trailing, closes.
  rewrite (firstn_skipn_seq 0) by (rewrite length_map; lia).
  rewrite <- backwards_window.
  apply map_ext_in. intros j Hj. apply in_seq in Hj.
  unfold closeAt. f_equal. lia.
Qed.

Lemma Qsum_map_ext (f g : Q -> Q) (l : list Q) :
  (forall x, f x == g x) -> Qsum (map f l) == Qsum (map g l).
Proof.
  intros E. induction l as [|x l IH]; simpl.
  - reflexivity.
  - rewrite IH, E. reflexivity.
Qed.

Lemma squared_deviations (data : list StockData) (p i : nat) (mv : Q) :
  (0 < p)%nat -> (p - 1 <= i)%nat -> (i < length data)%nat ->
  mv == mean (trailing p i (closes data)) ->
  fold_left (fun sum j => sum + (closeAt data (i - j) - mv) ^ 2) (seq 0 p) 0
  / num p
  == popVariance (trailing p i (closes data)).
Proof.
  intros Hp Hi Hlen Hmv.
  rewrite (fold_left_Qplus (fun j => (closeAt data (i - j) - mv) ^ 2)).
  rewrite <- (map_map (fun j => closeAt data (i - j))
                      (fun c => (c - mv) ^ 2)).
  rewrite backwards_closes by assumption.
  rewrite map_rev, Qsum_rev.
  unfold popVariance.
  rewrite trailing_length by (unfold closes; rewrite ?length_map; lia).
  rewrite (Qsum_map_ext (fun c => (c - mv) ^ 2)
             (fun c => (c - mean (trailing p i (closes data))) ^ 2)).
  - rewrite Qplus_0_l. reflexivity.
  - intros x. rewrite Hmv. reflexivity.
Qed.

Section BollingerFacts.

Variable sqrt : Q -> Q.

Lemma bollinger_upper_nth (data : list StockData) (p i : nat) (m : Q) :
  (i < length data)%nat ->
  nth_error (upper (calculateBollingerBands sqrt data p m)) i
  = Some (fst (bollingerCells sqrt data (calculateSMA data p) p m i)).
Proof.
  intros H. unfold calculateBollingerBands. cbn [upper].
  rewrite map_map, nth_error_map, nth_error_nth' with (d := O)
    by (rewrite length_seq; exact H).
  rewrite seq_nth by exact H. reflexivity.
Qed.

Lemma bollinger_lower_nth (data : list StockData) (p i : nat) (m : Q) :
  (i < length data)%nat ->
  nth_error (lower (calculateBollingerBands sqrt data p m)) i
  = Some (snd (bollingerCells sqrt data (calculateSMA data p) p m i)).
Proof.
  intros H. unfold calculateBollingerBands. cbn [lower].
  rewrite map_map, nth_error_map, nth_error_nth' with (d := O)
    by (rewrite length_seq; exact H).
  rewrite seq_nth by exact H. reflexivity.
Qed.

(** C5.  [calculateBollingerBands] returns full-length arrays with
    [middle = calculateSMA data p]; at every index [i >= p - 1],
    [upper[i] = middle[i] + m * sigma] and [lower[i] = middle[i] - m *
    sigma], [sigma] the population standard deviation (denominator [p])
    of the closes of the same trailing window; with fewer than [p] bars
    all three arrays are entirely null. *)
Theorem C5_calculateBollingerBands_spec
        (sqrt_ext : forall a b, a == b -> sqrt a == sqrt b)
        (data : list StockData) (p : nat) (m : Q) :
  (1 <= p)%nat ->
  let bands := calculateBollingerBands sqrt data p m in
  middle bands = calculateSMA data p /\
  length (upper bands) = length data /\
  length (middle bands) = length data /\
  length (lower bands) = length data /\
  (forall i, (p - 1 <= i)%nat -> (i < length data)%nat ->
     exists mid up lo,
       nth_error (middle bands) i = Some (Some mid) /\
       nth_error (upper bands) i = Some (Some up) /\
       nth_error (lower bands) i = Some (Some lo) /\
       mid == mean (trailing p i (closes data)) /\
       up == mid + m * sqrt (popVariance (trailing p i (closes data))) /\
       lo == mid - m * sqrt (popVariance (trailing p i (closes data)))) /\
  ((length data < p)%nat ->
     Forall (fun c => c = None) (upper bands) /\
     Forall (fun c => c = None) (middle bands) /\
     Forall (fun c => c = None) (lower bands)).
Proof.
  intros Hp bands. subst bands.
  split; [reflexivity|].
  split; [unfold calculateBollingerBands; cbn [upper];
          rewrite !length_map, length_seq; reflexivity|].
  split; [unfold calculateBollingerBands; cbn [middle];
          apply calculateSMA_length|].
  split; [unfold calculateBollingerBands; cbn [lower];
          rewrite !length_map, length_seq; reflexivity|].
  split.
  - intros i Hi Hl.
    destruct (calculateSMA_defined data p i) as [mid [Hmid Hmean]];
      try lia.
    assert (Hnth : nth i (calculateSMA data p) None = Some mid).
    { apply nth_error_nth with (d := None) in Hmid. exact Hmid. }
    assert (B : (i <? p - 1)%nat = false) by (apply Nat.ltb_ge; exact Hi).
    exists mid.
    eexists. eexists.
    split; [exact Hmid|].
    rewrite bollinger_upper_nth, bollinger_lower_nth by exact Hl.
    unfold bollingerCells. rewrite B, Hnth. cbn [fst snd asNumber].
    split; [reflexivity|]. split; [reflexivity|].
    split; [exact Hmean|].
    assert (V : sqrt (fold_left
                        (fun sum j => sum + (closeAt data (i - j) - mid) ^ 2)
                        (seq 0 p) 0 / num p)
                == sqrt (popVariance (trailing p i (closes data)))).
    { apply sqrt_ext. apply squared_deviations; try assumption; lia. }
    rewrite V. split; reflexivity.
  - intros Hshort.
    assert (W : forall i, (i < length data)%nat -> (i <? p - 1)%nat = true).
    { intros i Hi. apply Nat.ltb_lt. lia. }
    repeat split; apply Forall_forall; intros c Hc;
      apply In_nth_error in Hc; destruct Hc as [i Hc];
      assert (Hi : (i < length data)%nat).
    + apply nth_error_Some_lt in Hc. 
      unfold calculateBollingerBands in Hc; cbn [upper] in Hc.
      rewrite !length_map, length_seq in Hc. exact Hc.
    + rewrite bollinger_upper_nth in Hc by exact Hi.
      unfold bollingerCells in Hc. rewrite (W i Hi) in Hc.
      injection Hc as <-. reflexivity.
    + apply nth_error_Some_lt in Hc.
      unfold calculateBollingerBands in Hc; cbn [middle] in Hc.
      rewrite calculateSMA_length in Hc. exact Hc.
    + unfold calculateBollingerBands in Hc; cbn [middle] in Hc.
      rewrite calculateSMA_warmup in Hc by (try exact Hi; lia).
      injection Hc as <-. reflexivity.
    + apply nth_error_Some_lt in Hc.
      unfold calculateBollingerBands in Hc; cbn [lower] in Hc.
      rewrite !length_map, length_seq in Hc. exact Hc.
    + rewrite bollinger_lower_nth in Hc by exact Hi.
      unfold bollingerCells in Hc. rewrite (W i Hi) in Hc.
      injection Hc as <-. reflexivity.
Qed.

End BollingerFacts.

(** ** calculateRSI *)

Lemma Qlt_bool_iff (a b : Q) : Qlt_bool a b = true <-> a < b.
Proof.
  unfold Qlt_bool. rewrite negb_true_iff.
  split.
  - intros H. apply Qnot_le_lt. intros L. apply Qle_bool_iff in L.
    rewrite L in H. discriminate.
  - intros H. destruct (Qle_bool b a) eqn:E; [|reflexivity].
    apply Qle_bool_iff in E. exfalso. apply (Qlt_not_le _ _ H E).
Qed.

Lemma Qlt_bool_false (a b : Q) : Qlt_bool a b = false <-> b <= a.
Proof.
  unfold Qlt_bool. rewrite negb_false_iff. apply Qle_bool_iff.
Qed.

Lemma closeChanges_cons2 (a b : Q) (t : list Q) :
  closeChanges (a :: b :: t) = (b - a) :: closeChanges (b :: t).
Proof. reflexivity. Qed.

Lemma changes_closeChanges (data : list StockData) :
  map (fun i => closeAt data i - closeAt data (i - 1))
      (seq 1 (length data - 1))
  = closeChanges (closes data).
Proof.
  unfold closeAt, closes.
  rewrite <- (length_map close data).
  induction (map close data) as [|a l IH].
  - reflexivity.
  - destruct l as [|b t].
    + reflexivity.
    + change (length (a :: b :: t) - 1)%nat with (S (length t)).
      rewrite closeChanges_cons2, <- IH.
      cbn [seq map nth Nat.sub]. f_equal.
      change (length (b :: t) - 1)%nat with (length t - 0)%nat.
      rewrite Nat.sub_0_r, <- seq_shift, map_map.
      apply map_ext_in. intros i Hi. apply in_seq in Hi.
      destruct i as [|i]; [lia|].
      cbn [Nat.sub nth]. rewrite Nat.sub_0_r. reflexivity.
Qed.

Lemma closeChanges_length (l : list Q) :
  length (closeChanges l) = (length l - 1)%nat.
Proof.
  induction l as [|a t IH]; [reflexivity|].
  destruct t as [|b t']; [reflexivity|].
  cbn [closeChanges length] in *. rewrite IH. lia.
Qed.

Lemma rsiSeed_from (changes : list Q) (a k : nat) (g l : Q) :
  fst (fold_left (rsiSeedStep changes) (seq a k) (g, l))
  == g + Qsum (map gainOf (map (fun i => nth i changes 0) (seq a k))) /\
  snd (fold_left (rsiSeedStep changes) (seq a k) (g, l))
  == l + Qsum (map lossOf (map (fun i => nth i changes 0) (seq a k))).
Proof.
  unfold Qsum.
  revert a g l. induction k as [|k IH]; intros a g l;
    cbn [seq fold_left map fold_right].
  - cbn [fst snd]. split; ring.
  - unfold rsiSeedStep at 2 4.
    destruct (Qlt_bool 0 (nth a changes 0)) eqn:E.
    + destruct (IH (S a) (g + nth a changes 0) l) as [Hg Hl].
      rewrite Hg, Hl.
      unfold gainOf at 2, lossOf at 2. rewrite E.
      apply Qlt_bool_iff in E.
      assert (F : Qlt_bool (nth a changes 0) 0 = false).
      { apply Qlt_bool_false. apply Qlt_le_weak. exact E. }
      rewrite F. split; ring.
    + destruct (IH (S a) g (l + Qabs (nth a changes 0))) as [Hg Hl].
      rewrite Hg, Hl.
      unfold gainOf at 2, lossOf at 2. rewrite E.
      apply Qlt_bool_false in E.
      rewrite (Qabs_neg _ E).
      destruct (Qlt_bool (nth a changes 0) 0) eqn:F.
      * split; ring.
      * apply Qlt_bool_false in F.
        assert (Z0 : nth a changes 0 == 0) by (apply Qle_antisym; assumption).
        rewrite Z0. split; ring.
Qed.

(** The seeding loop accumulates the gains and the losses of the first
    [period] changes. *)
Lemma rsiSeed_sums (changes : list Q) (period : nat) :
  (period <= length changes)%nat ->
  fst (rsiSeed changes period) == Qsum (map gainOf (firstn period changes)) /\
  snd (rsiSeed changes period) == Qsum (map lossOf (firstn period changes)).
Proof.
  intros H. unfold rsiSeed.
  destruct (rsiSeed_from changes 0 period 0 0) as [Hg Hl].
  assert (F : firstn period changes
              = map (fun i => nth i changes 0) (seq 0 period)).
  { rewrite <- (firstn_skipn_seq 0 changes 0 period) by (simpl; exact H).
    reflexivity. }
  rewrite F, Hg, Hl. split; ring.
Qed.

Lemma rsiStep_snd (changes : list Q) (period : nat) (l : list nat)
      (rsi rsi' : list (option Q)) (avgs : Q * Q) :
  snd (fold_left (rsiStep changes period) l (rsi, avgs))
  = snd (fold_left (rsiStep changes period) l (rsi', avgs)).
Proof.
  revert rsi rsi' avgs. induction l as [|i l IH]; intros rsi rsi' avgs.
  - reflexivity.
  - cbn [fold_left]. destruct avgs as [g lo]. unfold rsiStep at 2 4.
    apply IH.
Qed.

(** The smoothing loop pushes, turn after turn, the RSI of the averages it
    holds after that turn. *)
Lemma rsiStep_fold (changes : list Q) (period s k : nat)
      (rsi : list (option Q)) (avgs : Q * Q) :
  fold_left (rsiStep changes period) (seq s k) (rsi, avgs)
  = (rsi ++
       map (fun j =>
              let a := snd (fold_left (rsiStep changes period) (seq s (S j))
                                      ([], avgs)) in
              Some (rsiOf (fst a) (snd a)))
           (seq 0 k),
     snd (fold_left (rsiStep changes period) (seq s k) ([], avgs))).
Proof.
  induction k as [|k IH].
  - cbn. rewrite app_nil_r. reflexivity.
  - rewrite (seq_S k s) at 1. rewrite fold_left_app, IH.
    cbn [fold_left].
    rewrite (seq_S k 0), map_app, app_assoc. cbn [map Nat.add].
    assert (N : fold_left (rsiStep changes period) (seq s (S k)) ([], avgs)
                = rsiStep changes period
                    (fold_left (rsiStep changes period) (seq s k) ([], avgs))
                    (s + k)%nat).
    { rewrite (seq_S k s), fold_left_app. reflexivity. }
    rewrite N.
    destruct (fold_left (rsiStep changes period) (seq s k) ([], avgs))
      as [r [g lo]] eqn:E.
    cbn [snd]. unfold rsiStep. cbn [fst snd]. reflexivity.
Qed.

(** The shape of the array [calculateRSI] builds when there are more bars
    than the period. *)
Lemma calculateRSI_shape (data : list StockData) (p : nat) :
  (p < length data)%nat ->
  let changes := closeChanges (closes data) in
  calculateRSI data p
  = repeat None p ++
    map (fun k => Some (rsiOf (fst (rsiAverages changes p k))
                              (snd (rsiAverages changes p k))))
        (seq 0 (S (length changes - p))).
Proof.
  intros H changes. unfold calculateRSI.
  assert (B : (length data <=? p)%nat = false) by (apply Nat.leb_gt; exact H).
  rewrite B, changes_closeChanges. fold changes.
  unfold rsiAverages.
  destruct (rsiSeed changes p) as [g0 l0].
  rewrite rsiStep_fold. cbn [fst].
  rewrite <- app_assoc. f_equal.
  cbn [seq map fold_left snd fst app]. f_equal.
  rewrite <- seq_shift, map_map. reflexivity.
Qed.

Lemma calculateRSI_length (data : list StockData) (p : nat) :
  length (calculateRSI data p) = length data.
Proof.
  destruct (Nat.le_gt_cases (length data) p) as [L|G].
  - unfold calculateRSI. apply Nat.leb_le in L. rewrite L.
    apply length_map.
  - rewrite (calculateRSI_shape data p G).
    rewrite length_app, repeat_length, length_map, length_seq.
    rewrite closeChanges_length. unfold closes. rewrite length_map. lia.
Qed.

Lemma calculateRSI_nth (data : list StockData) (p k : nat) :
  (p + k < length data)%nat ->
  let changes := closeChanges (closes data) in
  nth_error (calculateRSI data p) (p + k)
  = Some (Some (rsiOf (fst (rsiAverages changes p k))
                      (snd (rsiAverages changes p k)))).
Proof.
  intros H changes.
  rewrite (calculateRSI_shape data p) by lia. fold changes.
  rewrite nth_error_app2 by (rewrite repeat_length; lia).
  rewrite repeat_length.
  replace (p + k - p)%nat with k by lia.
  assert (K : (k < S (length changes - p))%nat).
  { unfold changes. rewrite closeChanges_length. unfold closes.
    rewrite length_map. lia. }
  rewrite nth_error_map, nth_error_nth' with (d := O)
    by (rewrite length_seq; exact K).
  rewrite seq_nth by exact K. reflexivity.
Qed.

Lemma calculateRSI_warmup (data : list StockData) (p i : nat) :
  (p < length data)%nat -> (i < p)%nat ->
  nth_error (calculateRSI data p) i = Some None.
Proof.
  intros H Hi. rewrite (calculateRSI_shape data p H).
  rewrite nth_error_app1 by (rewrite repeat_length; exact Hi).
  apply nth_error_repeat. exact Hi.
Qed.

Lemma rsiAverages_S (changes : list Q) (p k : nat) :
  rsiAverages changes p (S k)
  = (let '(avgGain, avgLoss) := rsiAverages changes p k in
     let change := nth (p + k) changes 0 in
     let gain := if Qlt_bool 0 change then change else 0 in
     let loss := if Qlt_bool change 0 then Qabs change else 0 in
     ((avgGain * (num p - 1) + gain) / num p,
      (avgLoss * (num p - 1) + loss) / num p)).
Proof.
  unfold rsiAverages. destruct (rsiSeed changes p) as [g0 l0].
  rewrite (seq_S k p), fold_left_app. cbn [fold_left].
  destruct (fold_left (rsiStep changes p) (seq p k) _) as [r [g lo]].
  reflexivity.
Qed.

Lemma lossOf_abs (c : Q) :
  (if Qlt_bool c 0 then Qabs c else 0) == lossOf c.
Proof.
  unfold lossOf. destruct (Qlt_bool c 0) eqn:E; [|reflexivity].
  apply Qlt_bool_iff in E. apply Qabs_neg. apply Qlt_le_weak. exact E.
Qed.

(** The averages of the loop are the Wilder averages of the gains and of the
    losses of the changes. *)
Lemma rsiAverages_wilder (changes : list Q) (p k : nat) :
  (p <= length changes)%nat ->
  fst (rsiAverages changes p k) == wilderAvg p (map gainOf changes) k /\
  snd (rsiAverages changes p k) == wilderAvg p (map lossOf changes) k.
Proof.
  intros H. induction k as [|k [IHg IHl]].
  - unfold rsiAverages.
    destruct (rsiSeed_sums changes p H) as [Hg Hl].
    destruct (rsiSeed changes p) as [g0 l0]. cbn [fst snd seq fold_left] in *.
    cbn [wilderAvg]. rewrite !firstn_map, Hg, Hl. split; reflexivity.
  - rewrite rsiAverages_S.
    destruct (rsiAverages changes p k) as [g lo]. cbn [fst snd] in *.
    cbn [wilderAvg]. unfold wilder.
    assert (Ng : nth (p + k) (map gainOf changes) 0
                 = gainOf (nth (p + k) changes 0))
      by exact (map_nth gainOf changes 0 (p + k)).
    assert (Nl : nth (p + k) (map lossOf changes) 0
                 = lossOf (nth (p + k) changes 0))
      by exact (map_nth lossOf changes 0 (p + k)).
    rewrite Ng, Nl, IHg, IHl, lossOf_abs. unfold gainOf at 1.
    split; reflexivity.
Qed.

Lemma rsiOf_ext (g g' l l' : Q) :
  g == g' -> l == l' -> rsiOf g l == rsiFormula g' l'.
Proof.
  intros Hg Hl. unfold rsiOf, rsiFormula.
  assert (E : Qeq_bool l 0 = Qeq_bool l' 0).
  { destruct (Qeq_bool l 0) eqn:A, (Qeq_bool l' 0) eqn:B; try reflexivity.
    - apply Qeq_bool_iff in A. apply Qeq_bool_neq in B.
      exfalso. apply B. rewrite <- Hl. exact A.
    - apply Qeq_bool_iff in B. apply Qeq_bool_neq in A.
      exfalso. apply A. rewrite Hl. exact B. }
  rewrite E. destruct (Qeq_bool l' 0); rewrite Hg, ?Hl; reflexivity.
Qed.

Lemma calculateRSI_defined (data : list StockData) (p k : nat) :
  (p + k < length data)%nat ->
  exists v,
    nth_error (calculateRSI data p) (p + k) = Some (Some v) /\
    v == rsiFormula
           (wilderAvg p (map gainOf (closeChanges (closes data))) k)
           (wilderAvg p (map lossOf (closeChanges (closes data))) k).
Proof.
  intros H. eexists. split.
  - apply calculateRSI_nth. exact H.
  - assert (L : (p <= length (closeChanges (closes data)))%nat).
    { rewrite closeChanges_length. unfold closes. rewrite length_map. lia. }
    destruct (rsiAverages_wilder (closeChanges (closes data)) p k L)
      as [Hg Hl].
    apply rsiOf_ext; assumption.
Qed.

(** C3.  With at most [p] bars [calculateRSI] is all null, as long as the
    bars.  With more, entries [0 .. p-1] are null; the entry at [p] is the
    RSI of the simple means of the gains and of the losses over the first
    [p] close-to-close changes; every later entry is the RSI of the
    averages smoothed by [avg = (avg * (p - 1) + current) / p]; and RS is
    [avgGain / avgLoss] with a zero [avgLoss] replaced by 0.001. *)
Theorem C3_calculateRSI_spec (data : list StockData) (p : nat) :
  (1 <= p)%nat ->
  let changes := closeChanges (closes data) in
  let avgGain := wilderAvg p (map gainOf changes) in
  let avgLoss := wilderAvg p (map lossOf changes) in
  ((length data <= p)%nat ->
     calculateRSI data p = repeat None (length data)) /\
  ((p < length data)%nat ->
     length (calculateRSI data p) = length data /\
     (forall i, (i < p)%nat ->
        nth_error (calculateRSI data p) i = Some None) /\
     (exists v,
        nth_error (calculateRSI data p) p = Some (Some v) /\
        v == rsiFormula (mean (map gainOf (firstn p changes)))
                        (mean (map lossOf (firstn p changes)))) /\
     (forall k, (p + k < length data)%nat ->
        exists v,
          nth_error (calculateRSI data p) (p + k) = Some (Some v) /\
          v == 100 - 100 /
                 (1 + avgGain k /
                      (if Qeq_bool (avgLoss k) 0 then 1 # 1000
                       else avgLoss k))) /\
     (forall k,
        avgGain (S k)
        == (avgGain k * (num p - 1) + gainOf (nth (p + k) changes 0)) / num p
        /\
        avgLoss (S k)
        == (avgLoss k * (num p - 1) + lossOf (nth (p + k) changes 0)) / num p)).
Proof.
  intros Hp changes avgGain avgLoss. split.
  - intros L. unfold calculateRSI. apply Nat.leb_le in L. rewrite L.
    clear. induction data as [|d data IH]; [reflexivity|].
    cbn [map length repeat]. rewrite IH. reflexivity.
  - intros G.
    assert (Lc : (p <= length changes)%nat).
    { unfold changes. rewrite closeChanges_length. unfold closes.
      rewrite length_map. lia. }
    split; [apply calculateRSI_length|].
    split; [intros i Hi; apply calculateRSI_warmup; assumption|].
    split; [|split].
    + destruct (calculateRSI_defined data p 0) as [v [Hv Hf]]; [lia|].
      rewrite Nat.add_0_r in Hv. exists v. split; [exact Hv|].
      rewrite Hf. fold changes. cbn [wilderAvg]. unfold mean.
      rewrite !length_map, length_firstn, Nat.min_l by exact Lc.
      rewrite !firstn_map. reflexivity.
    + intros k Hk. apply calculateRSI_defined. exact Hk.
    + intros k. unfold avgGain, avgLoss. cbn [wilderAvg]. unfold wilder.
      assert (Ng : nth (p + k) (map gainOf changes) 0
                   = gainOf (nth (p + k) changes 0))
        by exact (map_nth gainOf changes 0 (p + k)).
      assert (Nl : nth (p + k) (map lossOf changes) 0
                   = lossOf (nth (p + k) changes 0))
        by exact (map_nth lossOf changes 0 (p + k)).
      rewrite Ng, Nl. split; reflexivity.
Qed.

Lemma gainOf_nonneg (c : Q) : 0 <= gainOf c.
Proof.
  unfold gainOf. destruct (Qlt_bool 0 c) eqn:E.
  - apply Qlt_bool_iff in E. apply Qlt_le_weak. exact E.
  - apply Qle_refl.
Qed.

Lemma lossOf_nonneg (c : Q) : 0 <= lossOf c.
Proof.
  unfold lossOf. destruct (Qlt_bool c 0) eqn:E.
  - apply Qlt_bool_iff in E. lra.
  - apply Qle_refl.
Qed.

Lemma Qsum_nonneg (l : list Q) : Forall (fun x => 0 <= x) l -> 0 <= Qsum l.
Proof.
  induction 1 as [|x l Hx _ IH]; cbn [Qsum fold_right].
  - apply Qle_refl.
  - fold (Qsum l). lra.
Qed.

Lemma Forall_firstn {A : Type} (P : A -> Prop) (n : nat) (l : list A) :
  Forall P l -> Forall P (firstn n l).
Proof.
  intros H. revert n. induction H as [|x l Hx _ IH]; intros [|n]; cbn;
    constructor; auto.
Qed.

Lemma Qdiv_nonneg (a b : Q) : 0 <= a -> 0 < b -> 0 <= a / b.
Proof.
  intros Ha Hb. apply Qle_shift_div_l; [exact Hb|]. lra.
Qed.

Lemma wilderAvg_nonneg (p : nat) (values : list Q) (k : nat) :
  (1 <= p)%nat -> Forall (fun x => 0 <= x) values ->
  0 <= wilderAvg p values k.
Proof.
  intros Hp Hv.
  assert (P0 : 0 < num p) by (apply num_pos; lia).
  assert (P1 : 0 <= num p - 1).
  { destruct p as [|p]; [lia|]. rewrite num_S.
    assert (0 <= num p) by (unfold num, Qle; simpl; lia). lra. }
  induction k as [|k IH]; cbn [wilderAvg].
  - apply Qdiv_nonneg; [|exact P0].
    apply Qsum_nonneg, Forall_firstn, Hv.
  - unfold wilder. apply Qdiv_nonneg; [|exact P0].
    assert (N : 0 <= nth (p + k) values 0).
    { destruct (nth_in_or_default (p + k) values 0) as [I|D].
      - rewrite Forall_forall in Hv. apply Hv, I.
      - rewrite D. apply Qle_refl. }
    assert (M : 0 <= wilderAvg p values k * (num p - 1))
      by (apply Qmult_le_0_compat; assumption).
    lra.
Qed.

Lemma rsiFormula_bounds (g l : Q) :
  0 <= g -> 0 <= l -> 0 <= rsiFormula g l /\ rsiFormula g l <= 100.
Proof.
  intros Hg Hl. unfold rsiFormula.
  set (den := if Qeq_bool l 0 then 1 # 1000 else l).
  assert (D : 0 < den).
  { unfold den. destruct (Qeq_bool l 0) eqn:E; [reflexivity|].
    apply Qeq_bool_neq in E.
    destruct (Qle_lt_or_eq _ _ Hl) as [L|Z]; [exact L|].
    exfalso. apply E. symmetry. exact Z. }
  assert (R : 0 <= g / den) by (apply Qdiv_nonneg; assumption).
  assert (X : 0 < 1 + g / den) by lra.
  assert (U : 100 / (1 + g / den) <= 100).
  { apply Qle_shift_div_r; [exact X|]. lra. }
  assert (V : 0 <= 100 / (1 + g / den)).
  { apply Qdiv_nonneg; [lra|exact X]. }
  split; lra.
Qed.

(** C7.  Every non-null entry of [calculateRSI] lies in [[0, 100]]. *)
Theorem C7_calculateRSI_range (data : list StockData) (p i : nat) (v : Q) :
  (1 <= p)%nat ->
  nth_error (calculateRSI data p) i = Some (Some v) ->
  0 <= v /\ v <= 100.
Proof.
  intros Hp Hv.
  assert (Hi : (i < length data)%nat).
  { rewrite <- (calculateRSI_length data p).
    apply (nth_error_Some_lt _ _ _ Hv). }
  destruct (Nat.le_gt_cases (length data) p) as [L|G].
  - exfalso. unfold calculateRSI in Hv. apply Nat.leb_le in L.
    rewrite L, nth_error_map in Hv.
    destruct (nth_error data i); discriminate.
  - destruct (Nat.lt_ge_cases i p) as [W|D].
    + rewrite calculateRSI_warmup in Hv by assumption. discriminate.
    + replace i with (p + (i - p))%nat in Hv by lia.
      destruct (calculateRSI_defined data p (i - p)) as [w [Hw Hf]]; [lia|].
      rewrite Hw in Hv. injection Hv as <-.
      rewrite Hf. apply rsiFormula_bounds.
      * apply wilderAvg_nonneg; [exact Hp|].
        apply Forall_forall. intros x Hx. apply in_map_iff in Hx.
        destruct Hx as [c [<- _]]. apply gainOf_nonneg.
      * apply wilderAvg_nonneg; [exact Hp|].
        apply Forall_forall. intros x Hx. apply in_map_iff in Hx.
        destruct Hx as [c [<- _]]. apply lossOf_nonneg.
Qed.

(** * The chart interaction hook *)

(** ** deleteLine *)

Lemma filter_removes (lineId : string) (lines : list DrawingLine) :
  removes lineId lines
          (filter (fun line => negb (String.eqb (id line) lineId)) lines).
Proof.
  induction lines as [|l rest IH]; cbn [filter].
  - constructor.
  - destruct (String.eqb (id l) lineId) eqn:E; cbn [negb].
    + apply removes_drop; [apply String.eqb_eq, E | exact IH].
    + apply removes_keep; [apply String.eqb_neq, E | exact IH].
Qed.

(** C10.  [deleteLine id] removes exactly the lines with that id, keeps
    every other line in its relative order, and sets the selected line to
    none whatever it was, also when no line has the id (the lines are then
    unchanged); nothing else of the state changes. *)
Theorem C10_deleteLine_frame (lineId : string) (s : ChartState) :
  let s' := deleteLine lineId s in
  removes lineId (drawingLines s) (drawingLines s') /\
  (forall l, In l (drawingLines s') <->
             In l (drawingLines s) /\ id l <> lineId) /\
  ((forall l, In l (drawingLines s) -> id l <> lineId) ->
   drawingLines s' = drawingLines s) /\
  selectedLine s' = None /\
  (stockData s' = stockData s /\ xAxisDomain s' = xAxisDomain s /\
   drawingMode s' = drawingMode s /\ drawingStart s' = drawingStart s /\
   drawingEnd s' = drawingEnd s /\ isDragging s' = isDragging s /\
   dragStartX s' = dragStartX s).
Proof.
  cbn zeta. unfold deleteLine. cbn [drawingLines selectedLine setSelectedLine
                                   setDrawingLines].
  split; [apply filter_removes|].
  split.
  - intros l. rewrite filter_In, negb_true_iff, String.eqb_neq. reflexivity.
  - split; [|split; [reflexivity|repeat split]].
    intros H. induction (drawingLines s) as [|l rest IH]; [reflexivity|].
    cbn [filter].
    assert (E : String.eqb (id l) lineId = false).
    { apply String.eqb_neq, H. left. reflexivity. }
    rewrite E. cbn [negb]. f_equal. apply IH.
    intros l' Hl'. apply H. right. exact Hl'.
Qed.

(** ** Escape *)

Lemma keepsModeOff_step (s : ChartState) (ev : Event) :
  drawingMode s = None -> keepsModeOff ev ->
  drawingMode (step s ev) = None /\
  incl (drawingLines (step s ev)) (drawingLines s).
Proof.
  intros M K. destruct ev as [e|e|e|e|key|lineId]; cbn [step].
  - unfold handleWheel.
    destruct (length (stockData s) =? 0)%nat;
      [split; [exact M|apply incl_refl]|].
    destruct (wheelDomain _ _ _ _ _) as [a b]. cbn.
    split; [exact M|apply incl_refl].
  - unfold handleMouseDown. rewrite M. cbn.
    split; [exact M|apply incl_refl].
  - unfold handleMouseMove. rewrite M.
    destruct (isDragging s), (dragStartX s), (xAxisDomain s);
      try (split; [exact M|apply incl_refl]).
    destruct (dragDomain _ _ _) as [a b]. cbn.
    split; [exact M|apply incl_refl].
  - unfold handleMouseUp. rewrite M. cbn.
    split; [exact M|apply incl_refl].
  - destruct K as [Kt Kh].
    apply String.eqb_neq in Kt, Kh.
    unfold handleKeyDown. rewrite Kt, Kh.
    repeat match goal with
           | |- context [if ?b then _ else _] => destruct b
           | |- context [match xAxisDomain s with _ => _ end] =>
               destruct (xAxisDomain s)
           | |- context [match ?o with Some _ => _ | None => _ end] =>
               destruct o as [[? ?]|]
           | |- context [let '(_, _) := ?d in _] => destruct d
           end;
      cbn; (split; [first [exact M | reflexivity]|apply incl_refl]).
  - unfold deleteLine. cbn. split; [exact M|].
    intros l Hl. apply filter_In in Hl. apply Hl.
Qed.

Lemma keepsModeOff_run (events : list Event) (s : ChartState) :
  drawingMode s = None -> Forall keepsModeOff events ->
  drawingMode (run s events) = None /\
  incl (drawingLines (run s events)) (drawingLines s).
Proof.
  revert s. induction events as [|ev rest IH]; intros s M F.
  - split; [exact M|apply incl_refl].
  - inversion F as [|? ? K F']; subst.
    destruct (keepsModeOff_step s ev M K) as [M' I'].
    destruct (IH (step s ev) M' F') as [M'' I''].
    cbn [run fold_left]. split; [exact M''|].
    eapply incl_tran; [exact I''|exact I'].
Qed.

(** C6, as the code has it.  The Escape key sets the viewport domain to
    unset and the drawing mode to none in the same step; the provisional
    start and end points and the committed lines are left as they are.
    After it, as long as no drawing mode is activated again, no event
    commits a line. *)
Theorem C6_escape_clears_mode_only (s : ChartState) :
  let s' := handleKeyDown "Escape" s in
  xAxisDomain s' = None /\
  visibleData s' = Some (0, barCount s - 1) /\
  drawingMode s' = None /\
  drawingStart s' = drawingStart s /\
  drawingEnd s' = drawingEnd s /\
  drawingLines s' = drawingLines s /\
  (forall events, Forall keepsModeOff events ->
     drawingMode (run s' events) = None /\
     incl (drawingLines (run s' events)) (drawingLines s)).
Proof.
  cbn zeta.
  change (handleKeyDown "Escape" s) with (setDrawingMode None (resetZoom s)).
  repeat (split; [reflexivity|]).
  intros events F.
  apply (keepsModeOff_run events (setDrawingMode None (resetZoom s)));
    [reflexivity|exact F].
Qed.

(** The claim C6 fails where a line is being drawn: after Escape the
    provisional points captured before it are still there, and once the
    drawing mode is activated again the next pointer-up commits that
    line. *)
Lemma C6_escape_keeps_provisional_points :
  let s' := handleKeyDown "Escape" drawingTrend in
  ~ (xAxisDomain s' = None /\ drawingMode s' = None /\
     drawingStart s' = None /\ drawingEnd s' = None) /\
  drawingLines drawingTrend = [] /\
  exists l,
    drawingLines (run s' [KeyDown "t"; MouseUp (mouseAt 300 200 7)]) = [l] /\
    Some (mkPoint (startIndex l) (startPrice l)) = drawingStart drawingTrend.
Proof.
  cbn zeta. split; [|split].
  - intros [_ [_ [H _]]]. vm_compute in H. discriminate.
  - reflexivity.
  - eexists. split; vm_compute; reflexivity.
Qed.

(** ** Horizontal lines *)




(** Outside the scope of C9: a gesture begun in trendline mode and switched
    to the horizontal mode by the h key before the pointer-up is committed
    as a horizontal line with the trendline's two prices. *)
Lemma trendline_gesture_committed_as_horizontal :
  exists l,
    drawingLines (run drawingTrend [KeyDown "h"; MouseUp (mouseAt 300 200 7)])
    = [l] /\
    type l = horizontalline /\ startPrice l == 750 /\ endPrice l == 500.
Proof.
  eexists. split; [vm_compute; reflexivity|].
  split; [reflexivity|]. split; reflexivity.
Qed.

(** ** Viewport arithmetic *)

Lemma Qmax_cases (a b : Q) :
  (a <= b /\ Qmax a b == b) \/ (b <= a /\ Qmax a b == a).
Proof.
  destruct (Q.max_spec a b) as [[H E]|[H E]].
  - left. split; [apply Qlt_le_weak, H|exact E].
  - right. split; assumption.
Qed.

Lemma Qmin_cases (a b : Q) :
  (a <= b /\ Qmin a b == a) \/ (b <= a /\ Qmin a b == b).
Proof.
  destruct (Q.min_spec a b) as [[H E]|[H E]].
  - left. split; [apply Qlt_le_weak, H|exact E].
  - right. split; assumption.
Qed.

(** Case analysis on every [Qmax] and [Qmin] in sight, innermost first. *)
Ltac minmax_step :=
  match goal with
  | |- context [Qmax ?a ?b] =>
      lazymatch a with context [Qmax _ _] => fail | context [Qmin _ _] => fail
                  | _ => idtac end;
      lazymatch b with context [Qmax _ _] => fail | context [Qmin _ _] => fail
                  | _ => idtac end;
      let m := fresh "m" in
      let H := fresh "Hm" in
      pose proof (Qmax_cases a b) as H;
      set (m := Qmax a b) in *; clearbody m
  | |- context [Qmin ?a ?b] =>
      lazymatch a with context [Qmax _ _] => fail | context [Qmin _ _] => fail
                  | _ => idtac end;
      lazymatch b with context [Qmax _ _] => fail | context [Qmin _ _] => fail
                  | _ => idtac end;
      let m := fresh "m" in
      let H := fresh "Hm" in
      pose proof (Qmin_cases a b) as H;
      set (m := Qmin a b) in *; clearbody m
  end.

Ltac minmax := repeat minmax_step.

Ltac split_cases :=
  repeat match goal with
         | H : _ \/ _ |- _ => destruct H
         | H : _ /\ _ |- _ => destruct H
         end.








Lemma fullRange_valid (N : Q) : 6 <= N -> validDomain N (0, N - 1).
Proof.
  intros H. unfold validDomain. cbn [fst snd]. repeat split; lra.
Qed.

(** ** The viewport invariant *)

Lemma num_le (a b : nat) : (a <= b)%nat -> num a <= num b.
Proof.
  intros H. unfold num. rewrite <- Zle_Qle. lia.
Qed.







(** ** Wheel zoom in, then out *)

(** A wheel step that no clamp touches scales the range by the zoom factor
    and moves the start by the pointer ratio of the change. *)
Lemma wheelDomain_unclamped (N start endV zoomFactor center : Q) :
  unclamped N start endV zoomFactor center ->
  fst (wheelDomain N start endV zoomFactor center)
  == start + ((endV - start) - (endV - start) * zoomFactor) * center /\
  snd (wheelDomain N start endV zoomFactor center)
  - fst (wheelDomain N start endV zoomFactor center)
  == (endV - start) * zoomFactor.
Proof.
  unfold unclamped, wheelDomain. cbn zeta.
  set (x := (endV - start) * zoomFactor).
  intros [H5 [HN [H0 H1]]].
  assert (R : Qmax 5 (Qmin N x) == x).
  { rewrite (Q.min_r N x HN). apply Q.max_r. exact H5. }
  set (t := start + (endV - start - x) * center) in *.
  assert (S1 : Qmax 0 (start + (endV - start - Qmax 5 (Qmin N x)) * center)
               == t).
  { rewrite R. apply Q.max_r. exact H0. }
  assert (E1 : Qmin (N - 1)
                    (Qmax 0 (start + (endV - start - Qmax 5 (Qmin N x))
                                     * center)
                     + Qmax 5 (Qmin N x))
               == t + x).
  { rewrite S1, R. apply Q.min_r. exact H1. }
  destruct (Qeq_bool _ (N - 1)); cbn [fst snd].
  - assert (S2 : Qmax 0
                   (Qmin (N - 1)
                      (Qmax 0 (start + (endV - start - Qmax 5 (Qmin N x))
                                       * center)
                       + Qmax 5 (Qmin N x))
                    - Qmax 5 (Qmin N x))
                 == t).
    { rewrite E1, R.
      assert (T : t + x - x == t) by ring.
      rewrite T. apply Q.max_r. exact H0. }
    rewrite S2, E1. split; ring.
  - rewrite E1, S1. split; ring.
Qed.


Lemma handleWheel_domainNow (e : WheelEvent) (s : ChartState) :
  length (stockData s) <> 0%nat ->
  domainNow (handleWheel e s)
  = wheelDomain (barCount s) (fst (domainNow s)) (snd (domainNow s))
                (zoomFactorOf (deltaY e)) (anchorRatio e) /\
  barCount (handleWheel e s) = barCount s.
Proof.
  intros H. unfold handleWheel. apply Nat.eqb_neq in H. rewrite H.
  unfold domainNow at 2 3, anchorRatio.
  destruct (xAxisDomain s) as [d|]; cbn [fst snd];
    destruct (wheelDomain _ _ _ _ _) as [a b]; split; reflexivity.
Qed.

Lemma unclamped_bars (s : ChartState) (start endV f c : Q) :
  unclamped (barCount s) start endV f c -> length (stockData s) <> 0%nat.
Proof.
  unfold unclamped, barCount. intros [H5 [HN _]] Z. rewrite Z in HN.
  change (num 0) with 0 in HN. lra.
Qed.



(** * calculateMACD *)

(** The second loop of [calculateEMA] only appends numbers. *)
Lemma ema_loop_appends (prices : list jsnum) (multiplier : jsnum)
      (l : list nat) (ema : list (option jsnum)) (prev : jsnum) :
  exists vals,
    fst (fold_left
           (fun '(ema, prev) i =>
              let next :=
                jadd (jmul (jsub (priceAt prices i) prev) multiplier) prev in
              (ema ++ [Some next], next))
           l (ema, prev))
    = ema ++ map Some vals /\
    length vals = length l.
Proof.
  revert ema prev. induction l as [|i l IH]; intros ema prev.
  - exists []. cbn. rewrite app_nil_r. split; reflexivity.
  - cbn [fold_left].
    destruct (IH (ema ++
                  [Some (jadd (jmul (jsub (priceAt prices i) prev) multiplier)
                              prev)])
                 (jadd (jmul (jsub (priceAt prices i) prev) multiplier) prev))
      as [vals [E L]].
    exists (jadd (jmul (jsub (priceAt prices i) prev) multiplier) prev
            :: vals).
    split; [|cbn [length]; rewrite L; reflexivity].
    cbn zeta in E. rewrite E, <- app_assoc. reflexivity.
Qed.

(** With a period of at least 1, the array of [calculateEMA] is [period - 1]
    nulls followed by numbers, and is as long as the longer of the prices
    and the period. *)
Lemma calculateEMA_shape (prices : list jsnum) (period : nat) :
  (1 <= period)%nat ->
  exists vals,
    calculateEMA prices period = repeat None (period - 1) ++ map Some vals /\
    length vals = S (length prices - period).
Proof.
  intros H. destruct period as [|k]; [lia|].
  unfold calculateEMA.
  set (multiplier := Num (2 / (num (S k) + 1))).
  set (seed := jdiv _ _).
  destruct (ema_loop_appends prices multiplier
              (seq (S k) (length prices - S k))
              (repeat None k ++ [Some seed]) seed) as [vals [E L]].
  exists (seed :: vals). split.
  - cbn zeta in E. rewrite E, <- app_assoc.
    replace (S k - 1)%nat with k by lia. reflexivity.
  - cbn [length]. rewrite L, length_seq. reflexivity.
Qed.

Lemma calculateEMA_null (prices : list jsnum) (period i : nat) :
  (i < period - 1)%nat ->
  cellAt (calculateEMA prices period) (Z.of_nat i) = None.
Proof.
  intros H.
  destruct (calculateEMA_shape prices period) as [vals [E _]]; [lia|].
  unfold cellAt.
  assert (B : (Z.of_nat i <? 0)%Z = false) by (apply Z.ltb_ge; lia).
  rewrite B, Nat2Z.id, E, app_nth1 by (rewrite repeat_length; exact H).
  apply nth_repeat_lt. exact H.
Qed.

Lemma calculateEMA_number (prices : list jsnum) (period i : nat) :
  (1 <= period)%nat -> (period - 1 <= i)%nat -> (i < length prices)%nat ->
  exists v, cellAt (calculateEMA prices period) (Z.of_nat i) = Some v.
Proof.
  intros Hp H L.
  destruct (calculateEMA_shape prices period Hp) as [vals [E Lv]].
  unfold cellAt.
  assert (B : (Z.of_nat i <? 0)%Z = false) by (apply Z.ltb_ge; lia).
  rewrite B, Nat2Z.id, E, app_nth2 by (rewrite repeat_length; exact H).
  rewrite repeat_length.
  exists (nth (i - (period - 1)) vals NaN).
  change (Some NaN) with (Some NaN : option jsnum).
  rewrite <- (map_nth Some vals NaN). reflexivity.
Qed.

(** The alignment loop pushes what [alignFrom] lists. *)
Lemma alignStep_fold (signalEMA : list (option jsnum)) (signalPeriod : nat)
      (macdLine acc : list (option jsnum)) (n : nat) :
  fst (fold_left (alignStep signalEMA signalPeriod) macdLine (acc, n))
  = acc ++ alignFrom signalEMA signalPeriod n macdLine.
Proof.
  revert acc n. induction macdLine as [|cell rest IH]; intros acc n.
  - cbn. rewrite app_nil_r. reflexivity.
  - cbn [fold_left alignFrom]. destruct cell as [m|].
    + unfold alignStep at 2.
      destruct (Z.of_nat n <? Z.of_nat signalPeriod - 1)%Z;
        rewrite IH, <- app_assoc; reflexivity.
    + unfold alignStep at 2. rewrite IH, <- app_assoc. reflexivity.
Qed.

Lemma validBefore_S_some (i : nat) (m : jsnum)
      (rest : list (option jsnum)) :
  validBefore (Some m :: rest) (S i) = S (validBefore rest i).
Proof. reflexivity. Qed.

(** The cell the alignment puts at a non-null MACD cell preceded by [k]
    non-null cells. *)
Lemma alignFrom_nth (signalEMA : list (option jsnum)) (signalPeriod : nat)
      (macdLine : list (option jsnum)) (n i : nat) (m : jsnum) :
  nth_error macdLine i = Some (Some m) ->
  nth_error (alignFrom signalEMA signalPeriod n macdLine) i
  = Some (let k := (n + validBefore macdLine i)%nat in
          if (Z.of_nat k <? Z.of_nat signalPeriod - 1)%Z then None
          else cellAt signalEMA (Z.of_nat k - (Z.of_nat signalPeriod - 1))).
Proof.
  revert n i. induction macdLine as [|cell rest IH]; intros n i H.
  - destruct i; discriminate H.
  - destruct i as [|i].
    + cbn in H. injection H as ->. cbn [alignFrom nth_error].
      unfold validBefore. cbn [firstn macdLineValuesOf flat_map length].
      rewrite Nat.add_0_r. reflexivity.
    + cbn [nth_error] in H. destruct cell as [m'|]; cbn [alignFrom nth_error].
      * rewrite (IH (S n) i H). rewrite validBefore_S_some.
        replace (S n + validBefore rest i)%nat
          with (n + S (validBefore rest i))%nat by lia.
        reflexivity.
      * rewrite (IH n i H). reflexivity.
Qed.

Lemma macdLine_nth (data : list StockData) (fast slow sp i : nat) :
  (i < length data)%nat ->
  let closePrices := map (fun d => Num (close d)) data in
  nth_error (macdLine (calculateMACD data fast slow sp)) i
  = Some (if (i <? slow - 1)%nat then None
          else
            match cellAt (calculateEMA closePrices fast) (Z.of_nat i),
                  cellAt (calculateEMA closePrices slow) (Z.of_nat i)
            with
            | Some fastValue, Some slowValue =>
                Some (jsub fastValue slowValue)
            | _, _ => None
            end).
Proof.
  intros H closePrices. unfold calculateMACD. cbn [macdLine].
  fold closePrices.
  assert (L : (i < length closePrices)%nat)
    by (unfold closePrices; rewrite length_map; exact H).
  rewrite nth_error_map, nth_error_nth' with (d := O)
    by (rewrite length_seq; exact L).
  rewrite seq_nth by exact L. reflexivity.
Qed.

Lemma macdLine_length (data : list StockData) (fast slow sp : nat) :
  length (macdLine (calculateMACD data fast slow sp)) = length data.
Proof.
  unfold calculateMACD. cbn [macdLine].
  rewrite !length_map, length_seq. reflexivity.
Qed.

Lemma macdLine_null (data : list StockData) (fast slow sp i : nat) :
  (i < length data)%nat -> (i < slow - 1)%nat ->
  nth_error (macdLine (calculateMACD data fast slow sp)) i = Some None.
Proof.
  intros H W. rewrite macdLine_nth by exact H.
  apply Nat.ltb_lt in W. rewrite W. reflexivity.
Qed.

Lemma macdLine_defined (data : list StockData) (fast slow sp i : nat) :
  (1 <= fast)%nat -> (fast <= slow)%nat ->
  (slow - 1 <= i)%nat -> (i < length data)%nat ->
  exists m,
    nth_error (macdLine (calculateMACD data fast slow sp)) i = Some (Some m).
Proof.
  intros Hf Hs Hi H. rewrite macdLine_nth by exact H.
  assert (B : (i <? slow - 1)%nat = false) by (apply Nat.ltb_ge; exact Hi).
  rewrite B.
  destruct (calculateEMA_number (map (fun d => Num (close d)) data) fast i)
    as [x X]; try lia; [rewrite length_map; exact H|].
  destruct (calculateEMA_number (map (fun d => Num (close d)) data) slow i)
    as [y Y]; try lia; [rewrite length_map; exact H|].
  rewrite X, Y. eexists. reflexivity.
Qed.

Lemma firstn_S_nth {A : Type} (l : list A) (i : nat) (c : A) :
  nth_error l i = Some c -> firstn (S i) l = firstn i l ++ [c].
Proof.
  revert i. induction l as [|x l IH]; intros i H.
  - destruct i; discriminate H.
  - destruct i as [|i].
    + cbn in H. injection H as ->. reflexivity.
    + cbn [nth_error] in H. cbn [firstn app]. f_equal.
      exact (IH i H).
Qed.

Lemma validBefore_S (l : list (option jsnum)) (i : nat) (c : option jsnum) :
  nth_error l i = Some c ->
  validBefore l (S i)
  = (validBefore l i + match c with Some _ => 1 | None => 0 end)%nat.
Proof.
  intros H. unfold validBefore, macdLineValuesOf.
  rewrite (firstn_S_nth l i c H), flat_map_app, length_app.
  destruct c; reflexivity.
Qed.

(** The MACD line has no number before index [slow - 1] and one at every
    index from there on: [i - (slow - 1)] of them precede index [i]. *)
Lemma validBefore_macdLine (data : list StockData) (fast slow sp i : nat) :
  (1 <= fast)%nat -> (fast <= slow)%nat -> (i <= length data)%nat ->
  validBefore (macdLine (calculateMACD data fast slow sp)) i
  = (i - (slow - 1))%nat.
Proof.
  intros Hf Hs. induction i as [|i IH]; intros H.
  - reflexivity.
  - destruct (Nat.lt_ge_cases i (slow - 1)) as [W|D].
    + rewrite (validBefore_S _ i None) by (apply macdLine_null; lia).
      rewrite IH by lia. lia.
    + destruct (macdLine_defined data fast slow sp i) as [m M]; try lia.
      rewrite (validBefore_S _ i (Some m) M), IH by lia. lia.
Qed.

Lemma macdLineValues_length (data : list StockData) (fast slow sp : nat) :
  (1 <= fast)%nat -> (fast <= slow)%nat ->
  length (macdLineValuesOf (macdLine (calculateMACD data fast slow sp)))
  = (length data - (slow - 1))%nat.
Proof.
  intros Hf Hs.
  rewrite <- (validBefore_macdLine data fast slow sp (length data) Hf Hs)
    by lia.
  unfold validBefore.
  rewrite <- (macdLine_length data fast slow sp), firstn_all. reflexivity.
Qed.

Lemma signalLine_alignFrom (data : list StockData) (fast slow sp : nat) :
  let r := calculateMACD data fast slow sp in
  signalLine r
  = alignFrom (calculateEMA (macdLineValuesOf (macdLine r)) sp) sp 0
              (macdLine r).
Proof.
  cbn zeta. unfold calculateMACD at 1. cbn [signalLine].
  rewrite alignStep_fold. reflexivity.
Qed.

(** C2, what the code does.  With [1 <= fast <= slow] the MACD line is
    defined from index [slow - 1]; at index [i >= slow - 1], preceded by
    [k = i - (slow - 1)] MACD values, the signal line is null as long as
    [k < 2 * (signalPeriod - 1)], and from there on it holds the cell
    [k - (signalPeriod - 1)] of the EMA of the MACD values: the EMA that
    belongs to the MACD value [signalPeriod - 1] places earlier. *)
Theorem C2_signalLine_lags (data : list StockData)
        (fast slow sp i : nat) :
  (1 <= fast)%nat -> (fast <= slow)%nat -> (1 <= sp)%nat ->
  (slow - 1 <= i)%nat -> (i < length data)%nat ->
  let r := calculateMACD data fast slow sp in
  let signalEMA := calculateEMA (macdLineValuesOf (macdLine r)) sp in
  let k := (i - (slow - 1))%nat in
  (exists m, nth_error (macdLine r) i = Some (Some m)) /\
  validBefore (macdLine r) i = k /\
  ((k < 2 * (sp - 1))%nat -> nth_error (signalLine r) i = Some None) /\
  ((2 * (sp - 1) <= k)%nat ->
   exists v,
     nth_error (signalLine r) i = Some (Some v) /\
     nth_error signalEMA (k - (sp - 1)) = Some (Some v)).
Proof.
  intros Hf Hs Hp Hi H r signalEMA k.
  destruct (macdLine_defined data fast slow sp i Hf Hs Hi H) as [m M].
  fold r in M.
  assert (V : validBefore (macdLine r) i = k).
  { unfold r, k. apply validBefore_macdLine; lia. }
  split; [exists m; exact M|]. split; [exact V|].
  assert (A : nth_error (signalLine r) i
              = Some (if (Z.of_nat k <? Z.of_nat sp - 1)%Z then None
                      else cellAt signalEMA
                                  (Z.of_nat k - (Z.of_nat sp - 1)))).
  { unfold r. rewrite signalLine_alignFrom. fold r. fold signalEMA.
    rewrite (alignFrom_nth signalEMA sp (macdLine r) 0 i m M).
    cbn zeta. rewrite Nat.add_0_l, V. reflexivity. }
  split.
  - intros K. rewrite A.
    destruct (Z.of_nat k <? Z.of_nat sp - 1)%Z eqn:B; [reflexivity|].
    apply Z.ltb_ge in B.
    replace (Z.of_nat k - (Z.of_nat sp - 1))%Z
      with (Z.of_nat (k - (sp - 1))) by lia.
    unfold signalEMA. rewrite calculateEMA_null by lia. reflexivity.
  - intros K. rewrite A.
    assert (B : (Z.of_nat k <? Z.of_nat sp - 1)%Z = false)
      by (apply Z.ltb_ge; lia).
    rewrite B.
    replace (Z.of_nat k - (Z.of_nat sp - 1))%Z
      with (Z.of_nat (k - (sp - 1))) by lia.
    assert (Lk : (k - (sp - 1) < length (macdLineValuesOf (macdLine r)))%nat).
    { unfold r. rewrite macdLineValues_length by assumption.
      unfold k. lia. }
    destruct (calculateEMA_number (macdLineValuesOf (macdLine r)) sp
                                  (k - (sp - 1)) Hp) as [v Ev];
      [lia|exact Lk|].
    fold signalEMA in Ev. exists v. split; [rewrite Ev; reflexivity|].
    unfold cellAt in Ev.
    assert (Z0 : (Z.of_nat (k - (sp - 1)) <? 0)%Z = false)
      by (apply Z.ltb_ge; lia).
    rewrite Z0, Nat2Z.id in Ev.
    assert (Ll : (k - (sp - 1) < length signalEMA)%nat).
    { destruct (calculateEMA_shape (macdLineValuesOf (macdLine r)) sp Hp)
        as [vals [E Lv]].
      unfold signalEMA. rewrite E, length_app, repeat_length, length_map, Lv.
      lia. }
    rewrite (nth_error_nth' signalEMA (Some NaN) Ll), Ev. reflexivity.
Qed.

(** [histogram[i]] is [macdLine[i] - signalLine[i]] when both are numbers
    and null otherwise. *)
Lemma histogram_nth (data : list StockData) (fast slow sp i : nat) :
  (i < length data)%nat ->
  let r := calculateMACD data fast slow sp in
  nth_error (histogram r) i
  = Some (match nth i (macdLine r) None, nth i (signalLine r) None with
          | Some m, Some s => Some (jsub m s)
          | _, _ => None
          end).
Proof.
  intros H r. unfold r, calculateMACD.
  cbn [histogram macdLine signalLine].
  set (ml := map _ (seq 0 (length (map _ data)))).
  assert (L : length ml = length data).
  { unfold ml. rewrite !length_map, length_seq. reflexivity. }
  rewrite nth_error_map, nth_error_nth' with (d := O)
    by (rewrite length_seq, L; exact H).
  rewrite seq_nth by (rewrite L; exact H). reflexivity.
Qed.

(** On six bars with closes 1, 2, 4, 8, 16, 32 and the periods 1, 2, 2 the
    MACD line is defined from index 1.  The seed of the signal EMA, the
    mean 2/3 of the first two MACD values 1/2 and 5/6, sits at index 3,
    and index 2 is null. *)
Lemma signalLine_six_bars :
  let r := calculateMACD sixBars 1 2 2 in
  (exists m1 m2,
     nth_error (macdLine r) 1 = Some (Some (Num m1)) /\ m1 == 1 # 2 /\
     nth_error (macdLine r) 2 = Some (Some (Num m2)) /\ m2 == 5 # 6) /\
  firstn 3 (signalLine r) = [None; None; None] /\
  (exists v, nth_error (signalLine r) 3 = Some (Some (Num v)) /\ v == 2 # 3).
Proof.
  cbn zeta. split; [|split].
  - eexists. eexists.
    split; [vm_compute; reflexivity|]. split; [reflexivity|].
    split; [vm_compute; reflexivity|]. reflexivity.
  - vm_compute. reflexivity.
  - eexists. split; [vm_compute; reflexivity|]. reflexivity.
Qed.

(** * The theorems at concrete inputs *)

Lemma sqrtFloor_ext (a b : Q) : a == b -> sqrtFloor a == sqrtFloor b.
Proof.
  intros E. unfold sqrtFloor. rewrite (Qred_complete a b E). reflexivity.
Qed.

(** C4 on 25 rising bars with the period 20. *)
Lemma C4_calculateSMA_spec_witness :
  exists v,
    nth_error (calculateSMA (risingBars 25) 20) 19 = Some (Some v) /\
    v == mean (firstn 20 (closes (risingBars 25))).
Proof.
  assert (H : (1 <= 20)%nat) by lia.
  exact (proj2 (proj2 (proj2 (C4_calculateSMA_spec (risingBars 25) 20 H))
                      eq_refl)).
Defined.

(** C5 on the closes 1, 3 with the period 2 and the multiplier 2. *)
Lemma C5_calculateBollingerBands_spec_witness :
  exists mid up lo,
    nth_error (middle (calculateBollingerBands sqrtFloor twoBars 2 2))
              1 = Some (Some mid) /\
    nth_error (upper (calculateBollingerBands sqrtFloor twoBars 2 2))
              1 = Some (Some up) /\
    nth_error (lower (calculateBollingerBands sqrtFloor twoBars 2 2))
              1 = Some (Some lo) /\
    mid == mean (trailing 2 1 (closes twoBars)) /\
    up == mid + 2 * sqrtFloor (popVariance (trailing 2 1 (closes twoBars)))
    /\
    lo == mid - 2 * sqrtFloor (popVariance (trailing 2 1 (closes twoBars))).
Proof.
  assert (H : (1 <= 2)%nat) by lia.
  assert (H1 : (2 - 1 <= 1)%nat) by (simpl; lia).
  assert (H2 : (1 < length twoBars)%nat) by (simpl; lia).
  exact (proj1 (proj2 (proj2 (proj2 (proj2
           (C5_calculateBollingerBands_spec sqrtFloor sqrtFloor_ext
              twoBars 2 2 H))))) 1%nat H1 H2).
Defined.

(** C3 on the closes 1, 2, 4, 3 with the period 2. *)
Lemma C3_calculateRSI_spec_witness :
  exists v,
    nth_error (calculateRSI fourBars 2) 2 = Some (Some v) /\
    v == rsiFormula
           (mean (map gainOf
                      (firstn 2 (closeChanges (closes fourBars)))))
           (mean (map lossOf
                      (firstn 2 (closeChanges (closes fourBars))))).
Proof.
  assert (H : (1 <= 2)%nat) by lia.
  assert (H1 : (2 < length fourBars)%nat) by (simpl; lia).
  exact (proj1 (proj2 (proj2
           (proj2 (C3_calculateRSI_spec fourBars 2 H) H1)))).
Defined.

(** C7 on the closes 1, 2, 4, 3 with the period 2. *)
Lemma C7_calculateRSI_range_witness :
  exists v,
    nth_error (calculateRSI fourBars 2) 3 = Some (Some v) /\
    0 <= v /\ v <= 100.
Proof.
  eexists. split; [vm_compute; reflexivity|].
  apply (C7_calculateRSI_range fourBars 2 3);
    [lia | vm_compute; reflexivity].
Defined.

(** C2 on the closes 1, 2, 4, 8, 16, 32 with the periods 1, 2, 2, at
    index 2. *)
Lemma C2_signalLine_lags_witness :
  (exists m,
     nth_error (macdLine (calculateMACD sixBars 1 2 2))
               2 = Some (Some m)) /\
  validBefore (macdLine (calculateMACD sixBars 1 2 2)) 2
  = 1%nat /\
  nth_error (signalLine (calculateMACD sixBars 1 2 2)) 2
  = Some None.
Proof.
  assert (H1 : (1 <= 1)%nat) by lia.
  assert (H2 : (1 <= 2)%nat) by lia.
  assert (H3 : (2 - 1 <= 2)%nat) by (simpl; lia).
  assert (H4 : (2 < length sixBars)%nat)
    by (simpl; lia).
  assert (H5 : (2 - (2 - 1) < 2 * (2 - 1))%nat) by (simpl; lia).
  pose proof (C2_signalLine_lags sixBars 1 2 2 2
                                 H1 H2 H2 H3 H4) as T.
  cbn zeta in T.
  exact (conj (proj1 T) (conj (proj1 (proj2 T))
                              (proj1 (proj2 (proj2 T)) H5))).
Defined.


(** C6 on a trendline being drawn. *)
Lemma C6_escape_clears_mode_only_witness :
  drawingMode (run (handleKeyDown "Escape" drawingTrend)
                   [MouseUp (mouseAt 300 200 7); KeyDown "c"]) = None /\
  incl (drawingLines (run (handleKeyDown "Escape" drawingTrend)
                          [MouseUp (mouseAt 300 200 7); KeyDown "c"]))
       (drawingLines drawingTrend).
Proof.
  apply (proj2 (proj2 (proj2 (proj2 (proj2 (proj2
           (C6_escape_clears_mode_only drawingTrend))))))).
  repeat constructor; intros D; discriminate D.
Defined.



(** * Further properties of the indicators *)

Lemma Qsum_between (lo hi : Q) (l : list Q) :
  allBetween lo hi l ->
  lo * num (length l) <= Qsum l /\ Qsum l <= hi * num (length l).
Proof.
  induction 1 as [|x l [Hlo Hhi] _ [IHlo IHhi]].
  - cbn. change (num 0) with 0. split; lra.
  - cbn [length Qsum fold_right]. fold (Qsum l). rewrite num_S.
    split; lra.
Qed.

Lemma mean_between (lo hi : Q) (l : list Q) :
  l <> [] -> allBetween lo hi l -> lo <= mean l /\ mean l <= hi.
Proof.
  intros N H. destruct (Qsum_between lo hi l H) as [A B].
  assert (P : 0 < num (length l)).
  { apply num_pos. destruct l; [contradiction|cbn; lia]. }
  unfold mean. split.
  - apply Qle_shift_div_l; assumption.
  - apply Qle_shift_div_r; assumption.
Qed.

Lemma calculateSMA_some_index (data : list StockData) (p i : nat) (v : Q) :
  nth_error (calculateSMA data p) i = Some (Some v) ->
  (p - 1 <= i)%nat /\ (i < length data)%nat.
Proof.
  intros H.
  assert (L : (i < length data)%nat).
  { rewrite <- (calculateSMA_length data p).
    apply (nth_error_Some_lt _ _ _ H). }
  split; [|exact L].
  destruct (Nat.lt_ge_cases i (p - 1)) as [W|G]; [|exact G].
  rewrite calculateSMA_warmup in H by assumption. discriminate H.
Qed.

(** X1.  A moving average lies between the lowest and the highest close of
    its own trailing window. *)
Theorem X1_calculateSMA_between (data : list StockData) (p i : nat)
        (v lo hi : Q) :
  (1 <= p)%nat ->
  nth_error (calculateSMA data p) i = Some (Some v) ->
  allBetween lo hi (trailing p i (closes data)) ->
  lo <= v /\ v <= hi.
Proof.
  intros Hp Hv Hb.
  destruct (calculateSMA_some_index data p i v Hv) as [Hi Hl].
  destruct (calculateSMA_defined data p i) as [w [Hw Hm]]; try lia.
  rewrite Hw in Hv. injection Hv as <-.
  rewrite Hm. apply mean_between; [|exact Hb].
  intros E.
  assert (L : length (trailing p i (closes data)) = p).
  { apply trailing_length; unfold closes; rewrite ?length_map; lia. }
  rewrite E in L. cbn in L. lia.
Qed.

Lemma bollinger_cells_some (sqrt : Q -> Q) (data : list StockData)
      (p i : nat) (m mid up lo : Q) :
  nth_error (middle (calculateBollingerBands sqrt data p m)) i
  = Some (Some mid) ->
  nth_error (upper (calculateBollingerBands sqrt data p m)) i
  = Some (Some up) ->
  nth_error (lower (calculateBollingerBands sqrt data p m)) i
  = Some (Some lo) ->
  exists std,
    std = sqrt (fold_left
                  (fun sum j => sum + (closeAt data (i - j) - mid) ^ 2)
                  (seq 0 p) 0 / num p) /\
    up = mid + m * std /\ lo = mid - m * std.
Proof.
  intros Hm Hu Hl.
  assert (L : (i < length data)%nat).
  { apply nth_error_Some_lt in Hm.
    unfold calculateBollingerBands in Hm. cbn [middle] in Hm.
    rewrite calculateSMA_length in Hm. exact Hm. }
  unfold calculateBollingerBands in Hm. cbn [middle] in Hm.
  assert (N : nth i (calculateSMA data p) None = Some mid).
  { apply (nth_error_nth _ _ None) in Hm. exact Hm. }
  rewrite bollinger_upper_nth in Hu by exact L.
  rewrite bollinger_lower_nth in Hl by exact L.
  unfold bollingerCells in Hu, Hl.
  destruct (i <? p - 1)%nat; [discriminate Hu|].
  rewrite N in Hu, Hl. cbn [fst snd asNumber] in Hu, Hl.
  injection Hu as <-. injection Hl as <-.
  eexists. split; [reflexivity|]. split; reflexivity.
Qed.

(** X2.  The Bollinger bands are symmetric about the middle band:
    [upper + lower = 2 * middle] wherever they are defined, whatever the
    square root; and with a non-negative multiplier and a non-negative
    square root, [lower <= middle <= upper]. *)
Theorem X2_bollinger_symmetric (sqrt : Q -> Q) (data : list StockData)
        (p i : nat) (m mid up lo : Q) :
  nth_error (middle (calculateBollingerBands sqrt data p m)) i
  = Some (Some mid) ->
  nth_error (upper (calculateBollingerBands sqrt data p m)) i
  = Some (Some up) ->
  nth_error (lower (calculateBollingerBands sqrt data p m)) i
  = Some (Some lo) ->
  up + lo == 2 * mid /\
  up - mid == mid - lo /\
  (0 <= m -> (forall x, 0 <= sqrt x) -> lo <= mid /\ mid <= up).
Proof.
  intros Hm Hu Hl.
  destruct (bollinger_cells_some sqrt data p i m mid up lo Hm Hu Hl)
    as [std [Hs [-> ->]]].
  split; [ring|]. split; [ring|].
  intros M S.
  assert (P : 0 <= m * std).
  { apply Qmult_le_0_compat; [exact M|]. rewrite Hs. apply S. }
  split; lra.
Qed.

(** The three bands are null at the same indices. *)
Lemma bollinger_null_together (sqrt : Q -> Q) (data : list StockData)
      (p i : nat) (m : Q) :
  (1 <= p)%nat -> (i < length data)%nat ->
  (nth_error (upper (calculateBollingerBands sqrt data p m)) i = Some None
   <-> (i < p - 1)%nat) /\
  (nth_error (lower (calculateBollingerBands sqrt data p m)) i = Some None
   <-> (i < p - 1)%nat).
Proof.
  intros Hp L.
  rewrite bollinger_upper_nth, bollinger_lower_nth by exact L.
  unfold bollingerCells.
  destruct (i <? p - 1)%nat eqn:B; cbn [fst snd].
  - apply Nat.ltb_lt in B. split; split; intros; auto.
  - apply Nat.ltb_ge in B. split; split; intros H;
      first [discriminate H | lia].
Qed.


Lemma calculateRSI_some_index (data : list StockData) (p i : nat) (v : Q) :
  nth_error (calculateRSI data p) i = Some (Some v) ->
  (p < length data)%nat /\ (p <= i)%nat /\ (i < length data)%nat.
Proof.
  intros Hv.
  assert (Hi : (i < length data)%nat).
  { rewrite <- (calculateRSI_length data p).
    apply (nth_error_Some_lt _ _ _ Hv). }
  destruct (Nat.le_gt_cases (length data) p) as [L|G].
  - exfalso. unfold calculateRSI in Hv. apply Nat.leb_le in L.
    rewrite L, nth_error_map in Hv.
    destruct (nth_error data i); discriminate.
  - split; [exact G|]. split; [|exact Hi].
    destruct (Nat.lt_ge_cases i p) as [W|D]; [|exact D].
    rewrite calculateRSI_warmup in Hv by assumption. discriminate.
Qed.




Lemma Qsum_zero (l : list Q) : Forall (fun x => x == 0) l -> Qsum l == 0.
Proof.
  induction 1 as [|x l Hx _ IH]; cbn [Qsum fold_right].
  - reflexivity.
  - fold (Qsum l). rewrite Hx, IH. reflexivity.
Qed.

Lemma wilderAvg_zero (p : nat) (values : list Q) (k : nat) :
  Forall (fun x => x == 0) values -> wilderAvg p values k == 0.
Proof.
  intros H. induction k as [|k IH]; cbn [wilderAvg].
  - rewrite (Qsum_zero (firstn p values)) by (apply Forall_firstn, H).
    unfold Qdiv. ring.
  - unfold wilder.
    assert (N : nth (p + k) values 0 == 0).
    { destruct (nth_in_or_default (p + k) values 0) as [I|D].
      - rewrite Forall_forall in H. apply H, I.
      - rewrite D. reflexivity. }
    rewrite IH, N. unfold Qdiv. ring.
Qed.

Lemma rsiFormula_no_gain (g l : Q) : g == 0 -> rsiFormula g l == 0.
Proof.
  intros G. unfold rsiFormula. rewrite G.
  destruct (Qeq_bool l 0); unfold Qdiv; rewrite Qmult_0_l, Qplus_0_r;
    reflexivity.
Qed.

(** X4.  On a series in which no close is higher than the one before (a
    flat series included), every defined RSI value is 0. *)
Theorem X4_calculateRSI_no_gain (data : list StockData) (p i : nat)
        (v : Q) :
  (1 <= p)%nat ->
  Forall (fun change => change <= 0) (closeChanges (closes data)) ->
  nth_error (calculateRSI data p) i = Some (Some v) ->
  v == 0.
Proof.
  intros _ Hc Hv.
  destruct (calculateRSI_some_index data p i v Hv) as [G [D Hi]].
  replace i with (p + (i - p))%nat in Hv by lia.
  destruct (calculateRSI_defined data p (i - p)) as [w [Hw Hf]]; [lia|].
  rewrite Hw in Hv. injection Hv as <-.
  rewrite Hf. apply rsiFormula_no_gain, wilderAvg_zero.
  apply Forall_forall. intros x Hx. apply in_map_iff in Hx.
  destruct Hx as [c [<- Hin]].
  rewrite Forall_forall in Hc. specialize (Hc c Hin).
  unfold gainOf. apply Qlt_bool_false in Hc. rewrite Hc. reflexivity.
Qed.

(** ** calculateEMA and calculateMACD *)

Lemma calculateEMA_length (prices : list jsnum) (period : nat) :
  length (calculateEMA prices period) = Nat.max period (length prices).
Proof.
  destruct period as [|k].
  - unfold calculateEMA.
    set (multiplier := Num (2 / (num 0 + 1))).
    set (seed := jdiv _ _).
    destruct (ema_loop_appends prices multiplier
                (seq 0 (length prices - 0)) [] seed) as [vals [E L]].
    cbn zeta in E. rewrite E. cbn [app].
    rewrite length_map, L, length_seq. lia.
  - destruct (calculateEMA_shape prices (S k)) as [vals [E L]]; [lia|].
    rewrite E, length_app, repeat_length, length_map, L. lia.
Qed.

Lemma jadd_NaN_l (x : jsnum) : jadd NaN x = NaN.
Proof. reflexivity. Qed.

Lemma sum_NaN (prices : list jsnum) (l : list nat) :
  fold_left (fun sum i => jadd sum (priceAt prices i)) l NaN = NaN.
Proof.
  induction l as [|i l IH]; [reflexivity|].
  cbn [fold_left]. rewrite jadd_NaN_l. exact IH.
Qed.

(** Summing past the end of the prices gives NaN. *)
Lemma sum_past_end (prices : list jsnum) (a k : nat) (acc : jsnum) :
  (0 < k)%nat -> (length prices < a + k)%nat ->
  fold_left (fun sum i => jadd sum (priceAt prices i)) (seq a k) acc = NaN.
Proof.
  revert a acc. induction k as [|k IH]; intros a acc K H; [lia|].
  cbn [seq fold_left].
  destruct (Nat.le_gt_cases (length prices) a) as [Out|In].
  - unfold priceAt at 2. rewrite nth_overflow by exact Out.
    destruct acc; cbn [jadd]; apply sum_NaN.
  - apply IH; lia.
Qed.

(** X5.  [calculateEMA] returns as many cells as the longer of the prices
    and the period.  With fewer prices than the period the result is longer
    than the prices: [period - 1] nulls followed by one NaN. *)
Theorem X5_calculateEMA_short (prices : list jsnum) (period : nat) :
  length (calculateEMA prices period) = Nat.max period (length prices) /\
  ((length prices < period)%nat ->
   calculateEMA prices period = repeat None (period - 1) ++ [Some NaN]).
Proof.
  split; [apply calculateEMA_length|].
  intros H. destruct period as [|k]; [lia|].
  unfold calculateEMA.
  rewrite (sum_past_end prices 0 (S k) (Num 0)) by lia.
  replace (length prices - S k)%nat with 0%nat by lia.
  cbn [seq fold_left fst jdiv]. replace (S k - 1)%nat with k by lia.
  reflexivity.
Qed.

Lemma sum_inRange (lo hi : Q) (prices : list jsnum) (a k : nat) (acc : Q) :
  Forall (inRange lo hi) prices -> (a + k <= length prices)%nat ->
  exists s,
    fold_left (fun sum i => jadd sum (priceAt prices i)) (seq a k) (Num acc)
    = Num s /\
    acc + lo * num k <= s /\ s <= acc + hi * num k.
Proof.
  intros F. revert a acc. induction k as [|k IH]; intros a acc H.
  - exists acc. cbn [seq fold_left]. change (num 0) with 0.
    split; [reflexivity|]. split; lra.
  - cbn [seq fold_left].
    assert (I : inRange lo hi (priceAt prices a)).
    { rewrite Forall_forall in F. apply F. unfold priceAt.
      apply nth_In. lia. }
    destruct (priceAt prices a) as [x|]; [|contradiction].
    cbn [jadd]. destruct I as [Ilo Ihi].
    destruct (IH (S a) (acc + x)) as [s [E [B1 B2]]]; [lia|].
    exists s. split; [exact E|]. rewrite num_S. split; lra.
Qed.

Lemma convex_step (lo hi x y m : Q) :
  lo <= x -> x <= hi -> lo <= y -> y <= hi -> 0 <= m -> m <= 1 ->
  lo <= (x - y) * m + y /\ (x - y) * m + y <= hi.
Proof.
  intros X1 X2 Y1 Y2 M0 M1.
  assert (A : 0 <= m * (x - lo)) by (apply Qmult_le_0_compat; lra).
  assert (B : 0 <= (1 - m) * (y - lo)) by (apply Qmult_le_0_compat; lra).
  assert (C : 0 <= m * (hi - x)) by (apply Qmult_le_0_compat; lra).
  assert (D : 0 <= (1 - m) * (hi - y)) by (apply Qmult_le_0_compat; lra).
  split.
  - setoid_replace ((x - y) * m + y)
      with (lo + (m * (x - lo) + (1 - m) * (y - lo))) by ring.
    lra.
  - setoid_replace ((x - y) * m + y)
      with (hi - (m * (hi - x) + (1 - m) * (hi - y))) by ring.
    lra.
Qed.

(** The second loop of [calculateEMA] keeps its values between the bounds
    of the prices. *)
Lemma ema_loop_inRange (lo hi m : Q) (prices : list jsnum)
      (l : list nat) (ema : list (option jsnum)) (prev : jsnum) :
  Forall (inRange lo hi) prices -> 0 <= m -> m <= 1 ->
  inRange lo hi prev -> Forall (fun i => (i < length prices)%nat) l ->
  exists vals,
    fst (fold_left
           (fun '(ema, prev) i =>
              let next :=
                jadd (jmul (jsub (priceAt prices i) prev) (Num m)) prev in
              (ema ++ [Some next], next))
           l (ema, prev))
    = ema ++ map Some vals /\
    length vals = length l /\
    Forall (inRange lo hi) vals.
Proof.
  intros F M0 M1. revert ema prev.
  induction l as [|i l IH]; intros ema prev P L.
  - exists []. cbn. rewrite app_nil_r. repeat split. constructor.
  - cbn [fold_left]. inversion L as [|? ? Li L']; subst.
    assert (I : inRange lo hi (priceAt prices i)).
    { rewrite Forall_forall in F. apply F. unfold priceAt.
      apply nth_In. exact Li. }
    destruct (priceAt prices i) as [x|]; [|contradiction].
    destruct prev as [y|]; [|contradiction].
    cbn [jsub jmul jadd].
    assert (N : inRange lo hi (Num ((x - y) * m + y))).
    { destruct I, P. apply convex_step; assumption. }
    destruct (IH (ema ++ [Some (Num ((x - y) * m + y))])
                 (Num ((x - y) * m + y)) N L') as [vals [E [Len R]]].
    exists (Num ((x - y) * m + y) :: vals).
    split; [|split].
    + cbn zeta in E. rewrite E, <- app_assoc. reflexivity.
    + cbn [length]. rewrite Len. reflexivity.
    + constructor; assumption.
Qed.

Lemma multiplier_unit (p : nat) :
  (1 <= p)%nat -> 0 <= 2 / (num p + 1) /\ 2 / (num p + 1) <= 1.
Proof.
  intros H.
  assert (P : 1 <= num p) by (apply (num_le 1); exact H).
  split.
  - apply Qdiv_nonneg; lra.
  - apply Qle_shift_div_r; lra.
Qed.

(** With at least [period] prices, all numbers in [[lo, hi]], the array of
    [calculateEMA] is [period - 1] nulls followed by numbers in
    [[lo, hi]]. *)
Lemma calculateEMA_inRange (lo hi : Q) (prices : list jsnum) (period : nat) :
  (1 <= period)%nat -> (period <= length prices)%nat ->
  Forall (inRange lo hi) prices ->
  exists vals,
    calculateEMA prices period = repeat None (period - 1) ++ map Some vals /\
    length vals = S (length prices - period) /\
    Forall (inRange lo hi) vals.
Proof.
  intros Hp Hl F. destruct period as [|k]; [lia|].
  unfold calculateEMA.
  destruct (sum_inRange lo hi prices 0 (S k) 0 F) as [s [Es [S1 S2]]];
    [lia|].
  rewrite Es.
  assert (P : 0 < num (S k)) by (apply num_pos; lia).
  assert (Z : Qeq_bool (num (S k)) 0 = false).
  { destruct (Qeq_bool (num (S k)) 0) eqn:B; [|reflexivity].
    apply Qeq_bool_iff in B. rewrite B in P. discriminate P. }
  cbn [jdiv]. rewrite Z.
  assert (Seed : inRange lo hi (Num (s / num (S k)))).
  { cbn [inRange]. split.
    - apply Qle_shift_div_l; [exact P|]. lra.
    - apply Qle_shift_div_r; [exact P|]. lra. }
  destruct (multiplier_unit (S k) Hp) as [M0 M1].
  destruct (ema_loop_inRange lo hi (2 / (num (S k) + 1)) prices
              (seq (S k) (length prices - S k))
              (repeat None k ++ [Some (Num (s / num (S k)))])
              (Num (s / num (S k))) F M0 M1 Seed) as [vals [E [Len R]]].
  { apply Forall_forall. intros i Hi. apply in_seq in Hi. lia. }
  exists (Num (s / num (S k)) :: vals). split; [|split].
  - cbn zeta in E. rewrite E, <- app_assoc.
    replace (S k - 1)%nat with k by lia. reflexivity.
  - cbn [length]. rewrite Len, length_seq. reflexivity.
  - constructor; assumption.
Qed.

Lemma inRange_num (lo hi : Q) (x : jsnum) :
  inRange lo hi x -> exists q, x = Num q /\ lo <= q /\ q <= hi.
Proof.
  destruct x as [q|]; [|contradiction].
  intros [A B]. exists q. repeat split; assumption.
Qed.

Lemma calculateEMA_nth_inRange (lo hi : Q) (prices : list jsnum)
      (period i : nat) :
  (1 <= period)%nat -> Forall (inRange lo hi) prices ->
  (period - 1 <= i)%nat -> (i < length prices)%nat ->
  exists q,
    nth_error (calculateEMA prices period) i = Some (Some (Num q)) /\
    lo <= q /\ q <= hi.
Proof.
  intros Hp F Hi Hl.
  destruct (calculateEMA_inRange lo hi prices period Hp) as [vals [E [L R]]];
    [lia|exact F|].
  rewrite E, nth_error_app2 by (rewrite repeat_length; exact Hi).
  rewrite repeat_length, nth_error_map.
  destruct (nth_error vals (i - (period - 1))) as [x|] eqn:N.
  - apply nth_error_In in N. rewrite Forall_forall in R.
    destruct (inRange_num lo hi x (R x N)) as [q [-> B]].
    exists q. split; [reflexivity|exact B].
  - apply nth_error_None in N. lia.
Qed.

(** X6.  An exponential moving average stays between the bounds of its
    prices: when every price is a number in [[lo, hi]], every cell from
    index [period - 1] on is a number in [[lo, hi]] (and the cells before
    are null). *)
Theorem X6_calculateEMA_between (lo hi : Q) (prices : list jsnum)
        (period i : nat) :
  (1 <= period)%nat -> Forall (inRange lo hi) prices ->
  (i < length prices)%nat ->
  ((i < period - 1)%nat ->
   nth_error (calculateEMA prices period) i = Some None) /\
  ((period - 1 <= i)%nat ->
   exists q,
     nth_error (calculateEMA prices period) i = Some (Some (Num q)) /\
     lo <= q /\ q <= hi).
Proof.
  intros Hp F Hl. split.
  - intros W.
    destruct (calculateEMA_shape prices period Hp) as [vals [E _]].
    rewrite E, nth_error_app1 by (rewrite repeat_length; exact W).
    apply nth_error_repeat. exact W.
  - intros G. apply calculateEMA_nth_inRange; assumption.
Qed.

Lemma Forall_nth_error {A : Type} (P : A -> Prop) (l : list A) :
  (forall i x, nth_error l i = Some x -> P x) -> Forall P l.
Proof.
  intros H. apply Forall_forall. intros x Hx.
  apply In_nth_error in Hx. destruct Hx as [i Hi]. exact (H i x Hi).
Qed.

Lemma alignFrom_length (signalEMA : list (option jsnum)) (sp n : nat)
      (l : list (option jsnum)) :
  length (alignFrom signalEMA sp n l) = length l.
Proof.
  revert n. induction l as [|c l IH]; intros n; [reflexivity|].
  destruct c; cbn [alignFrom length]; rewrite IH; reflexivity.
Qed.

Lemma signalLine_length (data : list StockData) (fast slow sp : nat) :
  length (signalLine (calculateMACD data fast slow sp)) = length data.
Proof.
  rewrite signalLine_alignFrom, alignFrom_length. apply macdLine_length.
Qed.

Lemma histogram_length (data : list StockData) (fast slow sp : nat) :
  length (histogram (calculateMACD data fast slow sp)) = length data.
Proof.
  unfold calculateMACD. cbn [histogram].
  repeat rewrite ?length_map, ?length_seq. reflexivity.
Qed.

(** X7.  The three arrays of [calculateMACD] are as long as the bars,
    whatever the periods. *)
Theorem X7_calculateMACD_lengths (data : list StockData)
        (fast slow sp : nat) :
  length (macdLine (calculateMACD data fast slow sp)) = length data /\
  length (signalLine (calculateMACD data fast slow sp)) = length data /\
  length (histogram (calculateMACD data fast slow sp)) = length data.
Proof.
  split; [apply macdLine_length|].
  split; [apply signalLine_length|apply histogram_length].
Qed.

Lemma alignFrom_null (signalEMA : list (option jsnum)) (sp n : nat)
      (l : list (option jsnum)) :
  Forall (fun c => c = None) l ->
  Forall (fun c => c = None) (alignFrom signalEMA sp n l).
Proof.
  induction 1 as [|c l Hc _ IH]; [constructor|].
  subst c. cbn [alignFrom]. constructor; [reflexivity|exact IH].
Qed.

Lemma macdLine_short (data : list StockData) (fast slow sp : nat) :
  (length data < slow)%nat ->
  Forall (fun c => c = None) (macdLine (calculateMACD data fast slow sp)).
Proof.
  intros H. apply Forall_nth_error. intros i x Hx.
  assert (L : (i < length data)%nat).
  { rewrite <- (macdLine_length data fast slow sp).
    apply (nth_error_Some_lt _ _ _ Hx). }
  rewrite macdLine_null in Hx by lia. injection Hx as <-. reflexivity.
Qed.

(** X8.  With fewer bars than the slow period the MACD line, the signal
    line and the histogram are entirely null, whatever the other two
    periods. *)
Theorem X8_calculateMACD_short (data : list StockData)
        (fast slow sp : nat) :
  (length data < slow)%nat ->
  Forall (fun c => c = None) (macdLine (calculateMACD data fast slow sp)) /\
  Forall (fun c => c = None) (signalLine (calculateMACD data fast slow sp)) /\
  Forall (fun c => c = None) (histogram (calculateMACD data fast slow sp)).
Proof.
  intros H.
  pose proof (macdLine_short data fast slow sp H) as M.
  split; [exact M|]. split.
  - rewrite signalLine_alignFrom. apply alignFrom_null. exact M.
  - apply Forall_nth_error. intros i x Hx.
    assert (L : (i < length data)%nat).
    { rewrite <- (histogram_length data fast slow sp).
      apply (nth_error_Some_lt _ _ _ Hx). }
    rewrite histogram_nth in Hx by exact L.
    assert (N : nth i (macdLine (calculateMACD data fast slow sp)) None
                = None).
    { apply nth_error_nth. apply macdLine_null; lia. }
    rewrite N in Hx. injection Hx as <-. reflexivity.
Qed.

Lemma cellAt_nth_error (cells : list (option jsnum)) (i : nat)
      (c : option jsnum) :
  nth_error cells i = Some c -> cellAt cells (Z.of_nat i) = c.
Proof.
  intros H. unfold cellAt.
  assert (B : (Z.of_nat i <? 0)%Z = false) by (apply Z.ltb_ge; lia).
  rewrite B, Nat2Z.id. apply nth_error_nth. exact H.
Qed.

(** A cell of the EMA within the prices is null or within their bounds. *)
Lemma calculateEMA_cell (lo hi : Q) (values : list jsnum) (sp j : nat) :
  (1 <= sp)%nat -> Forall (inRange lo hi) values ->
  (j < length values)%nat ->
  nullOrInRange lo hi (cellAt (calculateEMA values sp) (Z.of_nat j)).
Proof.
  intros Hp F Hj. destruct (Nat.lt_ge_cases j (sp - 1)) as [W|G].
  - rewrite calculateEMA_null by exact W. exact I.
  - destruct (calculateEMA_nth_inRange lo hi values sp j Hp F G Hj)
      as [q [E B]].
    rewrite (cellAt_nth_error _ _ _ E). exact B.
Qed.

Lemma macdLineValuesOf_cons_some (m : jsnum) (l : list (option jsnum)) :
  macdLineValuesOf (Some m :: l) = m :: macdLineValuesOf l.
Proof. reflexivity. Qed.

Lemma macdLineValuesOf_cons_none (l : list (option jsnum)) :
  macdLineValuesOf (None :: l) = macdLineValuesOf l.
Proof. reflexivity. Qed.

Lemma alignFrom_inRange (lo hi : Q) (values : list jsnum) (sp : nat)
      (l : list (option jsnum)) (n : nat) :
  (1 <= sp)%nat -> Forall (inRange lo hi) values ->
  (n + length (macdLineValuesOf l) <= length values)%nat ->
  Forall (nullOrInRange lo hi) (alignFrom (calculateEMA values sp) sp n l).
Proof.
  intros Hp F. revert n. induction l as [|c l IH]; intros n H.
  - constructor.
  - destruct c as [m|]; cbn [alignFrom].
    + rewrite macdLineValuesOf_cons_some in H. cbn [length] in H.
      constructor; [|apply IH; lia].
      destruct (Z.of_nat n <? Z.of_nat sp - 1)%Z eqn:B; [exact I|].
      apply Z.ltb_ge in B.
      replace (Z.of_nat n - (Z.of_nat sp - 1))%Z
        with (Z.of_nat (n - (sp - 1))) by lia.
      apply calculateEMA_cell; [exact Hp|exact F|lia].
    + rewrite macdLineValuesOf_cons_none in H.
      constructor; [exact I|apply IH; exact H].
Qed.

Lemma values_inRange (lo hi : Q) (l : list (option jsnum)) :
  Forall (nullOrInRange lo hi) l ->
  Forall (inRange lo hi) (macdLineValuesOf l).
Proof.
  induction 1 as [|c l Hc _ IH]; [constructor|].
  destruct c as [m|].
  - rewrite macdLineValuesOf_cons_some. constructor; assumption.
  - rewrite macdLineValuesOf_cons_none. exact IH.
Qed.

Lemma macdLine_flat (data : list StockData) (fast slow sp : nat) (c : Q) :
  (1 <= fast)%nat -> (1 <= slow)%nat ->
  (forall d, In d data -> close d == c) ->
  Forall (nullOrInRange 0 0) (macdLine (calculateMACD data fast slow sp)).
Proof.
  intros Hf Hs Hc. apply Forall_nth_error. intros i x Hx.
  assert (L : (i < length data)%nat).
  { rewrite <- (macdLine_length data fast slow sp).
    apply (nth_error_Some_lt _ _ _ Hx). }
  rewrite macdLine_nth in Hx by exact L. cbn zeta in Hx.
  injection Hx as <-.
  destruct (i <? slow - 1)%nat eqn:B; [exact I|].
  apply Nat.ltb_ge in B.
  set (closePrices := map (fun d => Num (close d)) data).
  assert (F : Forall (inRange c c) closePrices).
  { apply Forall_forall. intros y Hy. apply in_map_iff in Hy.
    destruct Hy as [d [<- Hd]]. cbn [inRange].
    rewrite (Hc d Hd). split; apply Qle_refl. }
  assert (Lp : (i < length closePrices)%nat)
    by (unfold closePrices; rewrite length_map; exact L).
  destruct (Nat.lt_ge_cases i (fast - 1)) as [W|G].
  - rewrite calculateEMA_null by exact W. exact I.
  - destruct (calculateEMA_nth_inRange c c closePrices fast i Hf F G Lp)
      as [qf [Ef [Bf1 Bf2]]].
    destruct (calculateEMA_nth_inRange c c closePrices slow i Hs F B Lp)
      as [qs [Es [Bs1 Bs2]]].
    rewrite (cellAt_nth_error _ _ _ Ef), (cellAt_nth_error _ _ _ Es).
    cbn [nullOrInRange inRange jsub]. split; lra.
Qed.

(** X9.  On a flat series (every close equal to [c]) the MACD is zero:
    every cell of the MACD line, of the signal line and of the histogram is
    null or the number 0. *)
Theorem X9_calculateMACD_flat (data : list StockData)
        (fast slow sp : nat) (c : Q) :
  (1 <= fast)%nat -> (1 <= slow)%nat -> (1 <= sp)%nat ->
  (forall d, In d data -> close d == c) ->
  let r := calculateMACD data fast slow sp in
  Forall (nullOrInRange 0 0) (macdLine r) /\
  Forall (nullOrInRange 0 0) (signalLine r) /\
  Forall (nullOrInRange 0 0) (histogram r).
Proof.
  intros Hf Hs Hp Hc r.
  pose proof (macdLine_flat data fast slow sp c Hf Hs Hc) as M.
  assert (S : Forall (nullOrInRange 0 0)
                     (signalLine (calculateMACD data fast slow sp))).
  { rewrite signalLine_alignFrom.
    apply alignFrom_inRange; [exact Hp|apply values_inRange, M|].
    cbn. apply Nat.le_refl. }
  pose proof (histogram_length data fast slow sp) as Lh.
  pose proof (macdLine_length data fast slow sp) as Lm.
  pose proof (signalLine_length data fast slow sp) as Ls.
  pose proof (fun i => histogram_nth data fast slow sp i) as Hh.
  cbn zeta in Hh. fold r in M, S, Lh, Lm, Ls, Hh. clearbody r.
  split; [exact M|]. split; [exact S|].
  apply Forall_nth_error. intros i x Hx.
  assert (L : (i < length data)%nat).
  { rewrite <- Lh. apply (nth_error_Some_lt _ _ _ Hx). }
  rewrite (Hh i L) in Hx. injection Hx as <-.
  rewrite Forall_forall in M, S.
  assert (Pm : nullOrInRange 0 0 (nth i (macdLine r) None)).
  { apply M, nth_In. rewrite Lm. exact L. }
  assert (Ps : nullOrInRange 0 0 (nth i (signalLine r) None)).
  { apply S, nth_In. rewrite Ls. exact L. }
  destruct (nth i (macdLine r) None) as [[qm|]|]; try exact I;
    try contradiction.
  destruct (nth i (signalLine r) None) as [[qs|]|]; try exact I;
    try contradiction.
  cbn [nullOrInRange inRange jsub] in *. split; lra.
Qed.

(** * Further properties of the hook *)

(** ** Wheel zoom *)

(** X10.  A wheel zoom that no clamp touches keeps the bar under the
    pointer where it is: the index at the pointer ratio of the visible
    range is the same before and after. *)
Theorem X10_wheel_keeps_anchor (e : WheelEvent) (s : ChartState) :
  unclamped (barCount s) (fst (domainNow s)) (snd (domainNow s))
            (zoomFactorOf (deltaY e)) (anchorRatio e) ->
  anchorIndex (handleWheel e s) (anchorRatio e)
  == anchorIndex s (anchorRatio e).
Proof.
  intros U.
  pose proof (unclamped_bars s _ _ _ _ U) as L.
  destruct (handleWheel_domainNow e s L) as [D _].
  destruct (wheelDomain_unclamped _ _ _ _ _ U) as [A W].
  unfold anchorIndex, domainWidth. rewrite D, W, A. ring.
Qed.

Lemma Qmult_nonpos_nonneg (a b : Q) : a <= 0 -> 0 <= b -> a * b <= 0.
Proof.
  intros A B.
  assert (P : 0 <= (- a) * b) by (apply Qmult_le_0_compat; lra).
  setoid_replace (a * b) with (- ((- a) * b)) by ring. lra.
Qed.

Lemma wheelDomain_full_out (N start endV center : Q) :
  1 <= N -> start == 0 -> endV == N - 1 -> 0 <= center ->
  fst (wheelDomain N start endV (11 # 10) center) == 0 /\
  snd (wheelDomain N start endV (11 # 10) center) == N - 1.
Proof.
  intros HN Hs He Hc. unfold wheelDomain. cbn zeta.
  assert (R : endV - start <= Qmax 5 (Qmin N ((endV - start) * (11 # 10)))).
  { minmax. split_cases; lra. }
  assert (R5 : N - 1 <= Qmax 5 (Qmin N ((endV - start) * (11 # 10)))).
  { minmax. split_cases; lra. }
  revert R R5.
  generalize (Qmax 5 (Qmin N ((endV - start) * (11 # 10)))). intros nr R R5.
  assert (Y : (endV - start - nr) * center <= 0)
    by (apply Qmult_nonpos_nonneg; lra).
  revert Y. generalize ((endV - start - nr) * center). intros y Y.
  destruct (Qeq_bool (Qmin (N - 1) (Qmax 0 (start + y) + nr)) (N - 1)) eqn:E;
    cbn [fst snd].
  - minmax. split_cases; split; lra.
  - apply Qeq_bool_neq in E. revert E. minmax. intros E.
    split_cases; exfalso; apply E; lra.
Qed.

(** X11.  Zooming out with the wheel at the full range stays at the full
    range [[0, N - 1]], wherever the pointer is over the chart. *)
Theorem X11_wheel_out_at_full_range (e : WheelEvent) (s : ChartState) :
  (1 <= length (stockData s))%nat ->
  fst (domainNow s) == 0 -> snd (domainNow s) == barCount s - 1 ->
  0 < deltaY e -> 0 <= anchorRatio e ->
  fst (domainNow (handleWheel e s)) == 0 /\
  snd (domainNow (handleWheel e s)) == barCount s - 1.
Proof.
  intros L Hs He Hd Hc.
  assert (L0 : length (stockData s) <> 0%nat) by lia.
  destruct (handleWheel_domainNow e s L0) as [D _].
  assert (F : zoomFactorOf (deltaY e) = 11 # 10).
  { unfold zoomFactorOf. apply Qlt_bool_iff in Hd. rewrite Hd.
    reflexivity. }
  rewrite D, F. apply wheelDomain_full_out; try assumption.
  apply (num_le 1). exact L.
Qed.

Lemma wheelDomain_min_in (N start endV center : Q) :
  validDomain N (start, endV) -> endV - start == 5 ->
  fst (wheelDomain N start endV (9 # 10) center) == start /\
  snd (wheelDomain N start endV (9 # 10) center) == endV.
Proof.
  unfold validDomain. cbn [fst snd]. intros [H0 [H1 [H2 H3]]] W.
  unfold wheelDomain. cbn zeta.
  assert (R : Qmax 5 (Qmin N ((endV - start) * (9 # 10))) == 5).
  { minmax. split_cases; lra. }
  assert (Y : (endV - start - Qmax 5 (Qmin N ((endV - start) * (9 # 10))))
              * center == 0).
  { rewrite R. setoid_replace (endV - start - 5) with 0 by lra. ring. }
  revert R Y.
  generalize (Qmax 5 (Qmin N ((endV - start) * (9 # 10)))). intros nr R.
  generalize ((endV - start - nr) * center). intros y Y.
  destruct (Qeq_bool (Qmin (N - 1) (Qmax 0 (start + y) + nr)) (N - 1)) eqn:E;
    cbn [fst snd].
  - minmax. split_cases; split; lra.
  - minmax. split_cases; split; lra.
Qed.

(** X12.  At the minimum range of 5 a further wheel zoom-in changes
    nothing: the domain stays where it is. *)
Theorem X12_wheel_in_at_minimum (e : WheelEvent) (s : ChartState) :
  validDomain (barCount s) (domainNow s) -> domainWidth s == 5 ->
  deltaY e <= 0 ->
  fst (domainNow (handleWheel e s)) == fst (domainNow s) /\
  snd (domainNow (handleWheel e s)) == snd (domainNow s).
Proof.
  intros V W Hd.
  assert (L0 : length (stockData s) <> 0%nat).
  { intros Z. unfold validDomain, barCount in V. rewrite Z in V.
    change (num 0) with 0 in V. lra. }
  destruct (handleWheel_domainNow e s L0) as [D _].
  assert (F : zoomFactorOf (deltaY e) = 9 # 10).
  { unfold zoomFactorOf. apply Qlt_bool_false in Hd. rewrite Hd.
    reflexivity. }
  rewrite D, F. apply wheelDomain_min_in; [|exact W].
  destruct (domainNow s) as [a b]. exact V.
Qed.

(** ** Panning and the keyboard zoom *)

Lemma dragDomain_width (N moveRatio : Q) (d : Q * Q) :
  validDomain N d ->
  snd (dragDomain N d moveRatio) - fst (dragDomain N d moveRatio)
  == snd d - fst d.
Proof.
  destruct d as [a b]. unfold validDomain, dragDomain. cbn [fst snd].
  intros [H0 [H1 [H2 H3]]].
  generalize (moveRatio * (b - a)). intros y.
  destruct (Qeq_bool (Qmax 0 (a + y)) 0) eqn:E0.
  - apply Qeq_bool_iff in E0. revert E0. cbn [fst snd].
    minmax. intros E0. split_cases; lra.
  - destruct (Qeq_bool (Qmin (N - 1) (b + y)) (N - 1)) eqn:E1.
    + apply Qeq_bool_iff in E1. apply Qeq_bool_neq in E0. revert E0 E1.
      cbn [fst snd]. minmax. intros E0 E1.
      split_cases; try lra; exfalso; apply E0; lra.
    + apply Qeq_bool_neq in E0, E1. revert E0 E1.
      cbn [fst snd]. minmax. intros E0 E1.
      split_cases; try lra;
        exfalso; first [apply E0; lra | apply E1; lra].
Qed.

(** X13.  A mouse move never changes the width of a valid domain: a drag
    pan moves both bounds together, and at a border it stops there with
    the width kept. *)
Theorem X13_drag_keeps_width (e : MouseEvent) (s : ChartState) :
  validDomain (barCount s) (domainNow s) ->
  domainWidth (handleMouseMove e s) == domainWidth s.
Proof.
  intros V. unfold domainWidth, handleMouseMove.
  destruct (drawingMode s) as [[|]|], (drawingStart s), (chartRef e),
    (isDragging s), (dragStartX s); try reflexivity;
    destruct (xAxisDomain s) as [d|] eqn:D; try reflexivity;
    unfold domainNow in V; rewrite D in V;
    match goal with
    | |- context [dragDomain ?N ?d ?r] =>
        pose proof (dragDomain_width N r d V) as W;
        destruct (dragDomain N d r) as [a b];
        unfold domainNow at 3 4; rewrite D; exact W
    end.
Qed.

Lemma arrowLeftDomain_spec (N : Q) (d : Q * Q) :
  validDomain N d ->
  exists d',
    arrowLeftDomain N d = Some d' /\
    fst d' == Qmax 0 (fst d - (snd d - fst d) * (1 # 10)) /\
    snd d' - fst d' == snd d - fst d.
Proof.
  destruct d as [a b]. unfold validDomain, arrowLeftDomain. cbn [fst snd].
  intros [H0 [H1 [H2 H3]]].
  destruct (Qle_bool (Qmax 0 (a - (b - a) * (1 # 10)) + (b - a)) (N - 1))
    eqn:G.
  - eexists. split; [reflexivity|]. cbn [fst snd]. split; [reflexivity|].
    ring.
  - exfalso.
    assert (T : Qmax 0 (a - (b - a) * (1 # 10)) + (b - a) <= N - 1).
    { minmax. split_cases; lra. }
    apply Qle_bool_iff in T. rewrite T in G. discriminate G.
Qed.

Lemma arrowRightDomain_spec (N : Q) (d : Q * Q) :
  validDomain N d ->
  exists d',
    arrowRightDomain N d = Some d' /\
    snd d' == Qmin (N - 1) (snd d + (snd d - fst d) * (1 # 10)) /\
    snd d' - fst d' == snd d - fst d.
Proof.
  destruct d as [a b]. unfold validDomain, arrowRightDomain. cbn [fst snd].
  intros [H0 [H1 [H2 H3]]].
  destruct (Qle_bool 0 (Qmin (N - 1) (b + (b - a) * (1 # 10)) - (b - a)))
    eqn:G.
  - eexists. split; [reflexivity|]. cbn [fst snd]. split; [reflexivity|].
    ring.
  - exfalso.
    assert (T : 0 <= Qmin (N - 1) (b + (b - a) * (1 # 10)) - (b - a)).
    { minmax. split_cases; lra. }
    apply Qle_bool_iff in T. rewrite T in G. discriminate G.
Qed.

Lemma handleKeyDown_left (s : ChartState) (d : Q * Q) :
  xAxisDomain s = Some d ->
  domainNow (handleKeyDown "ArrowLeft" s)
  = match arrowLeftDomain (barCount s) d with
    | Some d' => d'
    | None => d
    end.
Proof.
  intros D. unfold handleKeyDown. cbn [String.eqb Ascii.eqb Bool.eqb].
  rewrite D. destruct (arrowLeftDomain (barCount s) d) as [[a b]|].
  - reflexivity.
  - unfold domainNow. rewrite D. reflexivity.
Qed.

Lemma handleKeyDown_right (s : ChartState) (d : Q * Q) :
  xAxisDomain s = Some d ->
  domainNow (handleKeyDown "ArrowRight" s)
  = match arrowRightDomain (barCount s) d with
    | Some d' => d'
    | None => d
    end.
Proof.
  intros D. unfold handleKeyDown. cbn [String.eqb Ascii.eqb Bool.eqb].
  rewrite D. destruct (arrowRightDomain (barCount s) d) as [[a b]|].
  - reflexivity.
  - unfold domainNow. rewrite D. reflexivity.
Qed.

(** X14.  From a valid domain the arrow keys always apply (their guards
    never fail) and keep the width: ArrowLeft moves the start left by a
    tenth of the width or stops it at 0, ArrowRight moves the end right by
    a tenth of the width or stops it at [N - 1]. *)
Theorem X14_arrow_pans (s : ChartState) (d : Q * Q) :
  xAxisDomain s = Some d -> validDomain (barCount s) d ->
  let w := snd d - fst d in
  (fst (domainNow (handleKeyDown "ArrowLeft" s))
   == Qmax 0 (fst d - w * (1 # 10)) /\
   domainWidth (handleKeyDown "ArrowLeft" s) == w) /\
  (snd (domainNow (handleKeyDown "ArrowRight" s))
   == Qmin (barCount s - 1) (snd d + w * (1 # 10)) /\
   domainWidth (handleKeyDown "ArrowRight" s) == w).
Proof.
  intros D V w. unfold domainWidth.
  rewrite (handleKeyDown_left s d D), (handleKeyDown_right s d D).
  destruct (arrowLeftDomain_spec (barCount s) d V) as [l [El [Ls Lw]]].
  destruct (arrowRightDomain_spec (barCount s) d V) as [r [Er [Rs Rw]]].
  rewrite El, Er. unfold w. repeat split; assumption.
Qed.

Lemma left_right_domain (N : Q) (d : Q * Q) :
  validDomain N d -> (snd d - fst d) * (1 # 10) <= fst d ->
  exists l r,
    arrowLeftDomain N d = Some l /\ arrowRightDomain N l = Some r /\
    fst r == fst d /\ snd r == snd d.
Proof.
  destruct d as [a b]. unfold validDomain, arrowLeftDomain, arrowRightDomain.
  cbn [fst snd]. intros [H0 [H1 [H2 H3]]] Room.
  destruct (Qle_bool (Qmax 0 (a - (b - a) * (1 # 10)) + (b - a)) (N - 1))
    eqn:G.
  - exists (Qmax 0 (a - (b - a) * (1 # 10)),
            Qmax 0 (a - (b - a) * (1 # 10)) + (b - a)).
    cbn [fst snd].
    match goal with
    | |- context [Qle_bool 0 ?t] => destruct (Qle_bool 0 t) eqn:G2
    end.
    + eexists. split; [reflexivity|]. split; [reflexivity|].
      cbn [fst snd]. minmax. split_cases; split; lra.
    + exfalso.
      match type of G2 with
      | Qle_bool 0 ?t = false =>
          assert (T : 0 <= t) by (minmax; split_cases; lra);
          apply Qle_bool_iff in T; rewrite T in G2; discriminate G2
      end.
  - exfalso.
    assert (T : Qmax 0 (a - (b - a) * (1 # 10)) + (b - a) <= N - 1).
    { minmax. split_cases; lra. }
    apply Qle_bool_iff in T. rewrite T in G. discriminate G.
Qed.

Lemma right_left_domain (N : Q) (d : Q * Q) :
  validDomain N d -> snd d + (snd d - fst d) * (1 # 10) <= N - 1 ->
  exists r l,
    arrowRightDomain N d = Some r /\ arrowLeftDomain N r = Some l /\
    fst l == fst d /\ snd l == snd d.
Proof.
  destruct d as [a b]. unfold validDomain, arrowLeftDomain, arrowRightDomain.
  cbn [fst snd]. intros [H0 [H1 [H2 H3]]] Room.
  destruct (Qle_bool 0 (Qmin (N - 1) (b + (b - a) * (1 # 10)) - (b - a)))
    eqn:G.
  - exists (Qmin (N - 1) (b + (b - a) * (1 # 10)) - (b - a),
            Qmin (N - 1) (b + (b - a) * (1 # 10))).
    cbn [fst snd].
    match goal with
    | |- context [Qle_bool ?t (N - 1)] =>
        destruct (Qle_bool t (N - 1)) eqn:G2
    end.
    + eexists. split; [reflexivity|]. split; [reflexivity|].
      cbn [fst snd]. minmax. split_cases; split; lra.
    + exfalso.
      match type of G2 with
      | Qle_bool ?t _ = false =>
          assert (T : t <= N - 1) by (minmax; split_cases; lra);
          apply Qle_bool_iff in T; rewrite T in G2; discriminate G2
      end.
  - exfalso.
    assert (T : 0 <= Qmin (N - 1) (b + (b - a) * (1 # 10)) - (b - a)).
    { minmax. split_cases; lra. }
    apply Qle_bool_iff in T. rewrite T in G. discriminate G.
Qed.

Lemma handleKeyDown_left_set (s : ChartState) (d l : Q * Q) :
  xAxisDomain s = Some d -> arrowLeftDomain (barCount s) d = Some l ->
  xAxisDomain (handleKeyDown "ArrowLeft" s) = Some l /\
  barCount (handleKeyDown "ArrowLeft" s) = barCount s.
Proof.
  intros D A. unfold handleKeyDown. cbn [String.eqb Ascii.eqb Bool.eqb].
  rewrite D, A. destruct l as [a b]. split; reflexivity.
Qed.

Lemma handleKeyDown_right_set (s : ChartState) (d r : Q * Q) :
  xAxisDomain s = Some d -> arrowRightDomain (barCount s) d = Some r ->
  xAxisDomain (handleKeyDown "ArrowRight" s) = Some r /\
  barCount (handleKeyDown "ArrowRight" s) = barCount s.
Proof.
  intros D A. unfold handleKeyDown. cbn [String.eqb Ascii.eqb Bool.eqb].
  rewrite D, A. destruct r as [a b]. split; reflexivity.
Qed.

(** X15.  ArrowLeft followed by ArrowRight brings a valid domain back to
    where it was when there was room for the step on the left (a tenth of
    the width), and ArrowRight followed by ArrowLeft when there was room
    on the right. *)
Theorem X15_arrow_round_trip (s : ChartState) (d : Q * Q) :
  xAxisDomain s = Some d -> validDomain (barCount s) d ->
  let w := snd d - fst d in
  (w * (1 # 10) <= fst d ->
   let s' := handleKeyDown "ArrowRight" (handleKeyDown "ArrowLeft" s) in
   fst (domainNow s') == fst d /\ snd (domainNow s') == snd d) /\
  (snd d + w * (1 # 10) <= barCount s - 1 ->
   let s' := handleKeyDown "ArrowLeft" (handleKeyDown "ArrowRight" s) in
   fst (domainNow s') == fst d /\ snd (domainNow s') == snd d).
Proof.
  intros D V w. split; intros Room s'; unfold s'.
  - destruct (left_right_domain (barCount s) d V Room)
      as [l [r [El [Er [A B]]]]].
    destruct (handleKeyDown_left_set s d l D El) as [D1 B1].
    rewrite <- B1 in Er.
    rewrite (handleKeyDown_right _ l D1), Er. split; assumption.
  - destruct (right_left_domain (barCount s) d V Room)
      as [r [l [Er [El [A B]]]]].
    destruct (handleKeyDown_right_set s d r D Er) as [D1 B1].
    rewrite <- B1 in El.
    rewrite (handleKeyDown_left _ r D1), El. split; assumption.
Qed.

Lemma keyZoomIn_exact (N : Q) (d : Q * Q) :
  validDomain N d ->
  fst (keyZoomDomain N d (8 # 10))
  == (fst d + snd d) / 2 - (snd d - fst d) * (4 # 10) /\
  snd (keyZoomDomain N d (8 # 10))
  == (fst d + snd d) / 2 + (snd d - fst d) * (4 # 10).
Proof.
  destruct d as [a b]. unfold validDomain, keyZoomDomain. cbn [fst snd].
  intros [H0 [H1 [H2 H3]]].
  unfold Qdiv. change (/ 2) with (1 # 2).
  minmax. split_cases; split; lra.
Qed.

(** X16.  From a valid domain the keyboard zoom-in is never clamped: it
    keeps the midpoint of the range and scales its width by exactly
    0.8. *)
Theorem X16_key_zoom_in (key : string) (s : ChartState) (d : Q * Q) :
  key = "+"%string \/ key = "="%string ->
  xAxisDomain s = Some d -> validDomain (barCount s) d ->
  domainMid (handleKeyDown key s) == domainMid s /\
  domainWidth (handleKeyDown key s) == (8 # 10) * domainWidth s.
Proof.
  intros K D V.
  assert (E : domainNow (handleKeyDown key s)
              = keyZoomDomain (barCount s) d (8 # 10)).
  { unfold handleKeyDown.
    destruct K as [-> | ->]; cbn [String.eqb Ascii.eqb Bool.eqb orb];
      rewrite D; destruct (keyZoomDomain (barCount s) d (8 # 10));
      reflexivity. }
  destruct (keyZoomIn_exact (barCount s) d V) as [A B].
  unfold domainMid, domainWidth. rewrite E, A, B.
  unfold domainNow. rewrite D.
  unfold Qdiv. change (/ 2) with (1 # 2). split; ring.
Qed.

(** ** Drawing *)

Lemma handleKeyDown_keeps_drawing (key : string) (s : ChartState) :
  drawingLines (handleKeyDown key s) = drawingLines s /\
  drawingStart (handleKeyDown key s) = drawingStart s /\
  drawingEnd (handleKeyDown key s) = drawingEnd s /\
  selectedLine (handleKeyDown key s) = selectedLine s.
Proof.
  unfold handleKeyDown.
  repeat match goal with
         | |- context [if ?b then _ else _] => destruct b
         | |- context [match xAxisDomain s with _ => _ end] =>
             destruct (xAxisDomain s)
         | |- context [match ?o with Some _ => _ | None => _ end] =>
             destruct o as [[? ?]|]
         | |- context [let '(_, _) := ?d in _] => destruct d
         end; repeat split.
Qed.

(** X17.  The keys t and h are exclusive toggles: t leaves the trendline
    mode active unless it was active already, in which case no mode is
    active; h does the same for the horizontal mode.  Neither touches the
    domain, the provisional points or the committed lines. *)
Theorem X17_mode_keys (s : ChartState) :
  drawingMode (handleKeyDown "t" s)
  = match drawingMode s with
    | Some trendline => None
    | _ => Some trendline
    end /\
  drawingMode (handleKeyDown "h" s)
  = match drawingMode s with
    | Some horizontalline => None
    | _ => Some horizontalline
    end /\
  (forall key, key = "t"%string \/ key = "h"%string ->
     xAxisDomain (handleKeyDown key s) = xAxisDomain s /\
     drawingLines (handleKeyDown key s) = drawingLines s /\
     drawingStart (handleKeyDown key s) = drawingStart s /\
     drawingEnd (handleKeyDown key s) = drawingEnd s).
Proof.
  split; [|split].
  - unfold handleKeyDown. cbn [String.eqb Ascii.eqb Bool.eqb orb].
    unfold toggleDrawingMode. destruct (drawingMode s) as [[|]|]; reflexivity.
  - unfold handleKeyDown. cbn [String.eqb Ascii.eqb Bool.eqb orb].
    unfold toggleDrawingMode. destruct (drawingMode s) as [[|]|]; reflexivity.
  - intros key [-> | ->]; unfold handleKeyDown;
      cbn [String.eqb Ascii.eqb Bool.eqb orb]; repeat split.
Qed.

(** X18.  One gesture in a drawing mode, with the chart mounted: pointer
    down, pointer move, pointer up append exactly one line to the
    collection.  It runs from the data point under the pointer-down to the
    one under the pointer-move (with the start's price in the horizontal
    mode), has the kind of the mode, the id of the clock at pointer-up and
    the palette colour of the number of lines before it; the provisional
    points are cleared and the mode stays active. *)
Theorem X18_gesture_commits_one_line (s : ChartState) (mode : DrawingMode)
        (e1 e2 e3 : MouseEvent) (rect1 rect2 : ChartElement) :
  drawingMode s = Some mode ->
  chartRef e1 = Some rect1 -> chartRef e2 = Some rect2 ->
  let s' := run s [MouseDown e1; MouseMove e2; MouseUp e3] in
  let start := pointerPoint s rect1 e1 in
  let endP := provisionalEnd mode start (pointerPoint s rect2 e2) in
  drawingLines s'
  = drawingLines s
      ++ [committedLine mode start endP (now e3) (length (drawingLines s))]
  /\ drawingStart s' = None /\ drawingEnd s' = None /\
  drawingMode s' = Some mode /\ xAxisDomain s' = xAxisDomain s.
Proof.
  intros M R1 R2. cbn zeta. unfold run. cbn [fold_left step].
  assert (D : handleMouseDown e1 s
              = setDrawingEnd None
                  (setDrawingStart (Some (pointerPoint s rect1 e1)) s)).
  { unfold handleMouseDown. rewrite M, R1. reflexivity. }
  rewrite D.
  assert (V : handleMouseMove e2
                (setDrawingEnd None
                   (setDrawingStart (Some (pointerPoint s rect1 e1)) s))
              = setDrawingEnd
                  (Some (provisionalEnd mode (pointerPoint s rect1 e1)
                                        (pointerPoint s rect2 e2)))
                  (setDrawingStart (Some (pointerPoint s rect1 e1)) s)).
  { unfold handleMouseMove.
    cbn [drawingMode drawingStart setDrawingEnd setDrawingStart].
    rewrite M, R2. destruct mode; reflexivity. }
  rewrite V. unfold handleMouseUp.
  cbn [drawingMode drawingStart drawingEnd drawingLines
       setDrawingEnd setDrawingStart setDrawingLines xAxisDomain].
  rewrite M. repeat split; exact M.
Qed.

(** X19.  A pointer-down followed at once by a pointer-up, with no move in
    between, commits nothing: the lines are unchanged, the provisional
    start stays captured and there is no provisional end. *)
Theorem X19_click_commits_nothing (s : ChartState) (mode : DrawingMode)
        (e1 e2 : MouseEvent) (rect : ChartElement) :
  drawingMode s = Some mode -> chartRef e1 = Some rect ->
  let s' := run s [MouseDown e1; MouseUp e2] in
  drawingLines s' = drawingLines s /\
  drawingStart s' = Some (pointerPoint s rect e1) /\
  drawingEnd s' = None /\
  drawingMode s' = Some mode.
Proof.
  intros M R. cbn zeta. unfold run. cbn [fold_left step].
  assert (D : handleMouseDown e1 s
              = setDrawingEnd None
                  (setDrawingStart (Some (pointerPoint s rect e1)) s)).
  { unfold handleMouseDown. rewrite M, R. reflexivity. }
  rewrite D. unfold handleMouseUp.
  cbn [drawingMode drawingStart drawingEnd drawingLines
       setDrawingEnd setDrawingStart setDragStartX setIsDragging].
  rewrite M. repeat split; exact M.
Qed.

(** ** Pointer to data coordinates *)

(** [Math.round] of a number between two integers is an integer between
    them. *)
Lemma round_between (za zb : Z) (x : Q) :
  inject_Z za <= x -> x <= inject_Z zb ->
  exists z, round x = inject_Z z /\ (za <= z <= zb)%Z.
Proof.
  intros A B. exists (Qfloor (x + (1 # 2))). split; [reflexivity|]. split.
  - rewrite <- (Qfloor_Z za). apply Qfloor_resp_le. lra.
  - pose proof (Qfloor_le (x + (1 # 2))) as F.
    assert (L : inject_Z (Qfloor (x + (1 # 2))) < inject_Z (zb + 1)).
    { rewrite inject_Z_plus. change (inject_Z 1) with 1. lra. }
    rewrite <- Zlt_Qlt in L. lia.
Qed.

Lemma ratio_unit (x w : Q) : 0 < w -> 0 <= x -> x <= w ->
  0 <= x / w /\ x / w <= 1.
Proof.
  intros W X0 X1. split.
  - apply Qdiv_nonneg; assumption.
  - apply Qle_shift_div_r; [exact W|]. lra.
Qed.

Lemma interpolate_between (a b t : Q) :
  a <= b -> 0 <= t -> t <= 1 ->
  a <= a + t * (b - a) /\ a + t * (b - a) <= b.
Proof.
  intros AB T0 T1.
  assert (P : 0 <= t * (b - a)) by (apply Qmult_le_0_compat; lra).
  assert (R : 0 <= (1 - t) * (b - a)) by (apply Qmult_le_0_compat; lra).
  split; [lra|].
  setoid_replace (a + t * (b - a)) with (b - (1 - t) * (b - a)) by ring.
  lra.
Qed.

(** X20.  For a pointer inside the chart rectangle, the data point
    [handleMouseDown] and [handleMouseMove] compute has a whole bar index
    between the floor of the visible start and the ceiling of the visible
    end, and a price between 0 and 1000. *)
Theorem X20_pointer_inside_chart (s : ChartState) (rect : ChartElement)
        (e : MouseEvent) :
  0 < rectWidth rect -> 0 < rectHeight rect ->
  rectLeft rect <= clientX e -> clientX e <= rectLeft rect + rectWidth rect ->
  rectTop rect <= clientY e -> clientY e <= rectTop rect + rectHeight rect ->
  fst (domainNow s) <= snd (domainNow s) ->
  let p := pointerPoint s rect e in
  (exists z, index p = inject_Z z /\
             (Qfloor (fst (domainNow s)) <= z
              <= Qceiling (snd (domainNow s)))%Z) /\
  0 <= price p /\ price p <= 1000.
Proof.
  intros W H X0 X1 Y0 Y1 D p. unfold p, pointerPoint. cbn [index price].
  destruct (ratio_unit (clientX e - rectLeft rect) (rectWidth rect) W)
    as [T0 T1]; try lra.
  destruct (ratio_unit (clientY e - rectTop rect) (rectHeight rect) H)
    as [U0 U1]; try lra.
  split.
  - revert T0 T1.
    generalize ((clientX e - rectLeft rect) / rectWidth rect). intros t T0 T1.
    unfold domainNow in *.
    destruct (xAxisDomain s) as [[a b]|]; cbn [fst snd] in *.
    + pose proof (Qfloor_le a) as Fa. pose proof (Qle_ceiling b) as Cb.
      assert (AB : inject_Z (Qfloor a) <= inject_Z (Qceiling b)) by lra.
      destruct (interpolate_between _ _ t AB T0 T1) as [I0 I1].
      apply round_between; assumption.
    + pose proof (Qfloor_le 0) as F0.
      pose proof (Qle_ceiling (barCount s - 1)) as Cb.
      destruct (interpolate_between 0 (barCount s - 1) t D T0 T1)
        as [I0 I1].
      apply round_between; lra.
  - revert U0 U1.
    generalize ((clientY e - rectTop rect) / rectHeight rect).
    intros u U0 U1. split; lra.
Qed.

(** ** The colours of the lines *)

Lemma handleMouseUp_lines (e : MouseEvent) (s : ChartState) :
  drawingLines (handleMouseUp e s) = drawingLines s \/
  exists mode start endP,
    drawingLines (handleMouseUp e s)
    = drawingLines s
        ++ [committedLine mode start endP (now e) (length (drawingLines s))].
Proof.
  unfold handleMouseUp.
  destruct (drawingMode s) as [mode|]; [|left; reflexivity].
  destruct (drawingStart s) as [start|]; [|left; reflexivity].
  destruct (drawingEnd s) as [endP|]; [|left; reflexivity].
  right. exists mode, start, endP. reflexivity.
Qed.

Lemma drawingLines_step (s : ChartState) (ev : Event) :
  isDelete ev = false ->
  drawingLines (step s ev) = drawingLines s \/
  exists mode start endP t,
    drawingLines (step s ev)
    = drawingLines s
        ++ [committedLine mode start endP t (length (drawingLines s))].
Proof.
  intros D. destruct ev as [e|e|e|e|key|lineId]; cbn [step].
  - left. unfold handleWheel.
    destruct (length (stockData s) =? 0)%nat; [reflexivity|].
    destruct (wheelDomain _ _ _ _ _). reflexivity.
  - left. unfold handleMouseDown.
    destruct (drawingMode s), (chartRef e); reflexivity.
  - left. unfold handleMouseMove.
    destruct (drawingMode s) as [[|]|], (drawingStart s), (chartRef e),
      (isDragging s), (dragStartX s), (xAxisDomain s);
      try reflexivity; destruct (dragDomain _ _ _); reflexivity.
  - destruct (handleMouseUp_lines e s) as [U|[mode [start [endP U]]]].
    + left. exact U.
    + right. exists mode, start, endP, (now e). exact U.
  - left. apply handleKeyDown_keeps_drawing.
  - discriminate D.
Qed.

Lemma coloursByPosition_app (lines : list DrawingLine) (l : DrawingLine) :
  coloursByPosition lines ->
  color l = nth (length lines mod 5) lineColors EmptyString ->
  coloursByPosition (lines ++ [l]).
Proof.
  intros C Hl i x Hx.
  destruct (Nat.lt_ge_cases i (length lines)) as [In|Out].
  - rewrite nth_error_app1 in Hx by exact In. apply C. exact Hx.
  - rewrite nth_error_app2 in Hx by exact Out.
    destruct (i - length lines)%nat as [|k] eqn:K.
    + cbn in Hx. injection Hx as <-.
      replace i with (length lines) by lia. exact Hl.
    + destruct k; discriminate Hx.
Qed.

(** X21.  As long as no line is deleted, the lines carry the palette
    colours in creation order: in every run of the hook without a deletion
    the line at position [i] of the collection has colour [i mod 5] of the
    palette. *)
Theorem X21_colours_cycle (bars : list StockData) (events : list Event) :
  Forall (fun ev => isDelete ev = false) events ->
  coloursByPosition (drawingLines (run (initialState bars) events)).
Proof.
  intros F.
  assert (G : forall s, coloursByPosition (drawingLines s) ->
                        coloursByPosition (drawingLines (run s events))).
  { induction F as [|ev rest Hev _ IH]; intros s C; [exact C|].
    cbn [run fold_left]. apply IH.
    destruct (drawingLines_step s ev Hev)
      as [U|[mode [start [endP [t U]]]]]; rewrite U.
    - exact C.
    - apply coloursByPosition_app; [exact C|reflexivity]. }
  apply G. intros i l H. destruct i; discriminate H.
Qed.

(** ** deleteLine *)

Lemma filter_filter_comm {A : Type} (f g : A -> bool) (l : list A) :
  filter f (filter g l) = filter g (filter f l).
Proof.
  induction l as [|x l IH]; [reflexivity|].
  cbn [filter]. destruct (f x) eqn:F, (g x) eqn:G; cbn [filter];
    rewrite ?F, ?G, IH; reflexivity.
Qed.

Lemma filter_idem {A : Type} (f : A -> bool) (l : list A) :
  filter f (filter f l) = filter f l.
Proof.
  induction l as [|x l IH]; [reflexivity|].
  cbn [filter]. destruct (f x) eqn:F; cbn [filter]; rewrite ?F, IH;
    reflexivity.
Qed.

(** X22.  Deletions commute and repeat harmlessly: deleting two ids in
    either order leaves the same state, and deleting an id a second time
    changes nothing. *)
Theorem X22_deleteLine_compose (a b : string) (s : ChartState) :
  deleteLine a (deleteLine b s) = deleteLine b (deleteLine a s) /\
  deleteLine a (deleteLine a s) = deleteLine a s.
Proof.
  unfold deleteLine.
  cbn [drawingLines setSelectedLine setDrawingLines stockData xAxisDomain
       visibleData isDragging dragStartX showCrosshair drawingMode
       drawingStart drawingEnd selectedLine chartStyle
       showKeyboardShortcuts].
  split.
  - rewrite filter_filter_comm. reflexivity.
  - rewrite filter_idem. reflexivity.
Qed.

(** ** The visible bars *)

Lemma num_minus_one (n : nat) :
  (1 <= n)%nat -> num n - 1 == inject_Z (Z.of_nat n - 1).
Proof.
  intros H. unfold num, Z.sub. rewrite inject_Z_plus, inject_Z_opp.
  reflexivity.
Qed.

Lemma visible_indices {A : Type} (data : list A) (start endV : Q) :
  0 <= start -> start <= endV -> endV <= num (length data) - 1 ->
  (0 <= Qfloor start)%Z /\ (Qfloor start <= Qceiling endV)%Z /\
  (Qceiling endV + 1 <= Z.of_nat (length data))%Z /\
  (5 <= endV - start -> (Qfloor start + 5 <= Qceiling endV)%Z).
Proof.
  intros S0 SE EN.
  assert (L : (1 <= length data)%nat).
  { destruct data; [|cbn; lia]. cbn in EN. change (num 0) with 0 in EN.
    lra. }
  pose proof (Qfloor_le start) as Fs. pose proof (Qle_ceiling endV) as Ce.
  split; [|split; [|split]].
  - rewrite <- (Qfloor_Z 0). apply Qfloor_resp_le. exact S0.
  - rewrite Zle_Qle. lra.
  - assert (C : (Qceiling endV <= Z.of_nat (length data) - 1)%Z).
    { rewrite <- (Qceiling_Z (Z.of_nat (length data) - 1)).
      apply Qceiling_resp_le. rewrite <- num_minus_one by exact L.
      exact EN. }
    lia.
  - intros W. rewrite Zle_Qle, inject_Z_plus.
    change (inject_Z 5) with 5. lra.
Qed.

(** X23.  For a domain within the bars, [updateVisibleData] makes visible
    exactly the bars from index [floor(start)] to index [ceil(end)], in
    order: [ceil(end) - floor(start) + 1] of them, and at least 6 when the
    domain is at least 5 wide. *)
Theorem X23_visible_slice {A : Type} (data : list A) (start endV : Q) :
  0 <= start -> start <= endV -> endV <= num (length data) - 1 ->
  let visible := visibleSlice data start endV in
  length visible = Z.to_nat (Qceiling endV - Qfloor start + 1) /\
  (forall k, (k < length visible)%nat ->
     nth_error visible k = nth_error data (Z.to_nat (Qfloor start) + k)) /\
  (5 <= endV - start -> (6 <= length visible)%nat).
Proof.
  intros S0 SE EN visible.
  destruct (visible_indices data start endV S0 SE EN) as [F0 [FC [CL W]]].
  assert (E : visible
              = firstn (Z.to_nat (Qceiling endV - Qfloor start + 1))
                       (skipn (Z.to_nat (Qfloor start)) data)).
  { unfold visible, visibleSlice, jsSlice, sliceIndex. cbn zeta.
    assert (B1 : (Qfloor start <? 0)%Z = false) by (apply Z.ltb_ge; lia).
    assert (B2 : (Qceiling endV + 1 <? 0)%Z = false)
      by (apply Z.ltb_ge; lia).
    rewrite B1, B2, !Z.min_l by lia.
    f_equal. lia. }
  assert (Len : length visible
                = Z.to_nat (Qceiling endV - Qfloor start + 1)).
  { rewrite E, length_firstn, length_skipn. lia. }
  split; [exact Len|]. split.
  - intros k Hk. rewrite Len in Hk.
    rewrite E, nth_error_firstn.
    assert (B : (k <? Z.to_nat (Qceiling endV - Qfloor start + 1))%nat
                = true) by (apply Nat.ltb_lt; exact Hk).
    rewrite B. apply nth_error_skipn.
  - intros W5. specialize (W W5). rewrite Len. lia.
Qed.

(** ** Keyboard zoom in, then out *)

Lemma keyZoom_in_out (N : Q) (d : Q * Q) :
  validDomain N d ->
  let d1 := keyZoomDomain N d (8 # 10) in
  let d2 := keyZoomDomain N d1 (12 # 10) in
  fst d2 == (fst d + snd d) / 2 - (snd d - fst d) * (48 # 100) /\
  snd d2 == (fst d + snd d) / 2 + (snd d - fst d) * (48 # 100).
Proof.
  destruct d as [a b]. unfold validDomain, keyZoomDomain. cbn [fst snd].
  intros [H0 [H1 [H2 H3]]]. cbn zeta. cbn [fst snd].
  unfold Qdiv. change (/ 2) with (1 # 2).
  minmax. split_cases; split; lra.
Qed.

Lemma handleKeyDown_zoom (key : string) (factor : Q) (s : ChartState)
      (d : Q * Q) :
  (key = "+"%string /\ factor = 8 # 10) \/
  (key = "-"%string /\ factor = 12 # 10) ->
  xAxisDomain s = Some d ->
  xAxisDomain (handleKeyDown key s)
  = Some (keyZoomDomain (barCount s) d factor) /\
  barCount (handleKeyDown key s) = barCount s.
Proof.
  intros K D. unfold handleKeyDown.
  destruct K as [[-> ->] | [-> ->]];
    cbn [String.eqb Ascii.eqb Bool.eqb orb]; rewrite D;
    destruct (keyZoomDomain (barCount s) d _) as [a b]; split; reflexivity.
Qed.

(** X24.  The key + followed by the key - is never clamped from a valid
    domain: the range keeps its midpoint and ends 0.96 times as wide, so
    the keyboard zoom does not undo itself either. *)
Theorem X24_key_zoom_in_out (s : ChartState) (d : Q * Q) :
  xAxisDomain s = Some d -> validDomain (barCount s) d ->
  let s' := handleKeyDown "-" (handleKeyDown "+" s) in
  domainMid s' == domainMid s /\
  domainWidth s' == (96 # 100) * domainWidth s.
Proof.
  intros D V s'.
  destruct (handleKeyDown_zoom "+" (8 # 10) s d) as [D1 B1];
    [left; split; reflexivity|exact D|].
  destruct (handleKeyDown_zoom "-" (12 # 10) (handleKeyDown "+" s)
              (keyZoomDomain (barCount s) d (8 # 10))) as [D2 _];
    [right; split; reflexivity|exact D1|].
  rewrite B1 in D2.
  destruct (keyZoom_in_out (barCount s) d V) as [A B]. cbn zeta in A, B.
  unfold domainMid, domainWidth, s', domainNow. rewrite D2, D.
  rewrite A, B. unfold Qdiv. change (/ 2) with (1 # 2). split; ring.
Qed.

(** ** The direction of a drag *)

Lemma dragDomain_direction (N moveRatio : Q) (d : Q * Q) :
  validDomain N d ->
  (moveRatio <= 0 ->
   fst (dragDomain N d moveRatio) <= fst d /\
   snd (dragDomain N d moveRatio) <= snd d) /\
  (0 <= moveRatio ->
   fst d <= fst (dragDomain N d moveRatio) /\
   snd d <= snd (dragDomain N d moveRatio)).
Proof.
  destruct d as [a b]. unfold validDomain, dragDomain. cbn [fst snd].
  intros [H0 [H1 [H2 H3]]].
  assert (S1 : moveRatio <= 0 -> moveRatio * (b - a) <= 0)
    by (intros; apply Qmult_nonpos_nonneg; lra).
  assert (S2 : 0 <= moveRatio -> 0 <= moveRatio * (b - a))
    by (intros; apply Qmult_le_0_compat; lra).
  revert S1 S2. generalize (moveRatio * (b - a)). intros y S1 S2.
  destruct (Qeq_bool (Qmax 0 (a + y)) 0) eqn:E0.
  - apply Qeq_bool_iff in E0. revert E0. cbn [fst snd].
    minmax. intros E0.
    split; intros M; [specialize (S1 M)|specialize (S2 M)];
      split_cases; split; lra.
  - destruct (Qeq_bool (Qmin (N - 1) (b + y)) (N - 1)) eqn:E1.
    + apply Qeq_bool_iff in E1. apply Qeq_bool_neq in E0. revert E0 E1.
      cbn [fst snd]. minmax. intros E0 E1.
      split; intros M; [specialize (S1 M)|specialize (S2 M)];
        split_cases; split; try lra; exfalso; apply E0; lra.
    + apply Qeq_bool_neq in E0, E1. revert E0 E1.
      cbn [fst snd]. minmax. intros E0 E1.
      split; intros M; [specialize (S1 M)|specialize (S2 M)];
        split_cases; split; try lra;
        exfalso; first [apply E0; lra | apply E1; lra].
Qed.

(** X25.  While panning a valid domain, dragging the pointer to the right
    never moves the visible range to the right, and dragging it to the
    left never moves the range to the left; the drag start follows the
    pointer. *)
Theorem X25_drag_direction (e : MouseEvent) (s : ChartState)
        (startX : Q) (d : Q * Q) (el : ChartElement) :
  drawingMode s = None -> isDragging s = true ->
  dragStartX s = Some startX -> xAxisDomain s = Some d ->
  validDomain (barCount s) d ->
  chartRef e = Some el -> 0 <= clientWidth el ->
  let s' := handleMouseMove e s in
  dragStartX s' = Some (clientX e) /\
  (startX <= clientX e ->
   fst (domainNow s') <= fst d /\ snd (domainNow s') <= snd d) /\
  (clientX e <= startX ->
   fst d <= fst (domainNow s') /\ snd d <= snd (domainNow s')).
Proof.
  intros M G X D V R W s'. unfold s', handleMouseMove.
  rewrite M, G, X, D, R.
  set (chartWidth := if Qeq_bool (clientWidth el) 0 then 1
                     else clientWidth el).
  assert (P : 0 < chartWidth).
  { unfold chartWidth. destruct (Qeq_bool (clientWidth el) 0) eqn:Z;
      [reflexivity|].
    apply Qeq_bool_neq in Z.
    destruct (Qle_lt_or_eq _ _ W) as [L|E]; [exact L|].
    exfalso. apply Z. symmetry. exact E. }
  destruct (dragDomain_direction (barCount s)
              ((startX - clientX e) / chartWidth) d V) as [Neg Pos].
  destruct (dragDomain (barCount s) d ((startX - clientX e) / chartWidth))
    as [a b].
  cbn [fst snd] in Neg, Pos.
  split; [reflexivity|]. split; intros Dir.
  - apply Neg.
    assert (Q0 : 0 <= (clientX e - startX) / chartWidth)
      by (apply Qdiv_nonneg; [lra|exact P]).
    setoid_replace ((startX - clientX e) / chartWidth)
      with (- ((clientX e - startX) / chartWidth))
      by (unfold Qdiv; ring).
    lra.
  - apply Pos. apply Qdiv_nonneg; [lra|exact P].
Qed.

(** ** The EMA by its recurrence *)

Lemma priceAt_Num (prices : list Q) (a : nat) :
  (a < length prices)%nat ->
  priceAt (map Num prices) a = Num (nth a prices 0).
Proof.
  intros H. unfold priceAt.
  rewrite (nth_indep _ NaN (Num 0)) by (rewrite length_map; exact H).
  apply (map_nth Num prices 0 a).
Qed.

Lemma sum_exact (prices : list Q) (a k : nat) (acc : Q) :
  (a + k <= length prices)%nat ->
  exists s,
    fold_left (fun sum i => jadd sum (priceAt (map Num prices) i))
              (seq a k) (Num acc) = Num s /\
    s == acc + Qsum (firstn k (skipn a prices)).
Proof.
  revert a acc. induction k as [|k IH]; intros a acc H.
  - exists acc. cbn. split; [reflexivity|ring].
  - cbn [seq fold_left]. rewrite priceAt_Num by lia. cbn [jadd].
    destruct (IH (S a) (acc + nth a prices 0)) as [s [E Hs]]; [lia|].
    exists s. split; [exact E|]. rewrite Hs.
    rewrite (firstn_skipn_seq 0 prices a (S k)) by lia.
    rewrite (firstn_skipn_seq 0 prices (S a) k) by lia.
    unfold Qsum. cbn [seq map fold_right]. ring.
Qed.

Lemma ema_loop_exact (prices : list Q) (m : Q) (n a : nat)
      (ema : list (option jsnum)) (prev : Q) :
  (a + n <= length prices)%nat ->
  fst (fold_left
         (fun '(ema, prev) i =>
            let next :=
              jadd (jmul (jsub (priceAt (map Num prices) i) prev) (Num m))
                   prev in
            (ema ++ [Some next], next))
         (seq a n) (ema, Num prev))
  = ema ++ map (fun q => Some (Num q)) (emaRun prices m prev a n).
Proof.
  revert a ema prev. induction n as [|n IH]; intros a ema prev H.
  - cbn. rewrite app_nil_r. reflexivity.
  - cbn [seq fold_left emaRun map]. rewrite priceAt_Num by lia.
    cbn [jsub jmul jadd]. rewrite IH by lia.
    rewrite <- app_assoc. reflexivity.
Qed.

Lemma emaRun_length (prices : list Q) (m prev : Q) (a n : nat) :
  length (emaRun prices m prev a n) = n.
Proof.
  revert prev a. induction n as [|n IH]; intros prev a; [reflexivity|].
  cbn [emaRun length]. rewrite IH. reflexivity.
Qed.

Lemma emaRun_spec (prices : list Q) (p : nat) (n k0 j : nat) (prev : Q) :
  prev == emaOf prices p k0 -> (j < n)%nat ->
  exists q,
    nth_error (emaRun prices (2 / (num p + 1)) prev (p + k0) n) j = Some q /\
    q == emaOf prices p (k0 + S j).
Proof.
  revert k0 j prev. induction n as [|n IH]; intros k0 j prev E H; [lia|].
  cbn [emaRun].
  assert (N : (nth (p + k0) prices 0 - prev) * (2 / (num p + 1)) + prev
              == emaOf prices p (S k0)).
  { cbn [emaOf]. rewrite E. reflexivity. }
  destruct j as [|j].
  - eexists. split; [reflexivity|].
    replace (k0 + 1)%nat with (S k0) by lia. exact N.
  - cbn [nth_error].
    replace (S (p + k0)) with (p + S k0)%nat by lia.
    destruct (IH (S k0) j _ N) as [q [Hq Eq]]; [lia|].
    exists q. split; [exact Hq|].
    replace (k0 + S (S j))%nat with (S k0 + S j)%nat by lia. exact Eq.
Qed.

(** The cell [period - 1 + k] of [calculateEMA] over numbers is the EMA [k]
    steps after its seed. *)
Lemma calculateEMA_exact (prices : list Q) (p k : nat) :
  (1 <= p)%nat -> (p + k <= length prices)%nat ->
  exists q,
    nth_error (calculateEMA (map Num prices) p) (p - 1 + k)
    = Some (Some (Num q)) /\
    q == emaOf prices p k.
Proof.
  intros Hp H. destruct p as [|p']; [lia|].
  unfold calculateEMA.
  destruct (sum_exact prices 0 (S p') 0) as [s [Es Hs]]; [lia|].
  rewrite Es.
  assert (P : 0 < num (S p')) by (apply num_pos; lia).
  assert (Z : Qeq_bool (num (S p')) 0 = false).
  { destruct (Qeq_bool (num (S p')) 0) eqn:B; [|reflexivity].
    apply Qeq_bool_iff in B. rewrite B in P. discriminate P. }
  cbn [jdiv]. rewrite Z, length_map.
  rewrite ema_loop_exact by lia. cbn [fst].
  assert (Seed : s / num (S p') == emaOf prices (S p') 0).
  { cbn [emaOf]. unfold mean. rewrite length_firstn, Nat.min_l by lia.
    rewrite Hs. cbn [skipn]. rewrite Qplus_0_l. reflexivity. }
  replace (S p' - 1 + k)%nat with (p' + k)%nat by lia.
  rewrite <- app_assoc, nth_error_app2 by (rewrite repeat_length; lia).
  rewrite repeat_length. replace (p' + k - p')%nat with k by lia.
  destruct k as [|j].
  - eexists. split; [reflexivity|exact Seed].
  - cbn [app nth_error]. rewrite nth_error_map.
    destruct (emaRun_spec prices (S p') (length prices - S p') 0 j _ Seed)
      as [q [Hq Eq]]; [lia|].
    rewrite Nat.add_0_r in Hq. rewrite Hq.
    exists q. split; [reflexivity|exact Eq].
Qed.

(** X26.  [calculateEMA] over numbers is the exponential moving average
    of the source's recurrence: null before index [period - 1]; at
    [period - 1] the simple mean of the first [period] prices; and from
    then on [ema[i] = (price[i] - ema[i-1]) * (2 / (period + 1)) +
    ema[i-1]]. *)
Theorem X26_calculateEMA_recurrence (prices : list Q) (p : nat) :
  (1 <= p)%nat -> (p <= length prices)%nat ->
  (forall i, (i < p - 1)%nat ->
     nth_error (calculateEMA (map Num prices) p) i = Some None) /\
  (exists q,
     nth_error (calculateEMA (map Num prices) p) (p - 1)
     = Some (Some (Num q)) /\
     q == mean (firstn p prices)) /\
  (forall i, (p <= i)%nat -> (i < length prices)%nat ->
     exists prev q,
       nth_error (calculateEMA (map Num prices) p) (i - 1)
       = Some (Some (Num prev)) /\
       nth_error (calculateEMA (map Num prices) p) i
       = Some (Some (Num q)) /\
       q == (nth i prices 0 - prev) * (2 / (num p + 1)) + prev).
Proof.
  intros Hp Hl. split; [|split].
  - intros i W.
    destruct (calculateEMA_shape (map Num prices) p Hp) as [vals [E _]].
    rewrite E, nth_error_app1 by (rewrite repeat_length; exact W).
    apply nth_error_repeat. exact W.
  - destruct (calculateEMA_exact prices p 0 Hp) as [q [Hq Eq]]; [lia|].
    rewrite Nat.add_0_r in Hq. exists q. split; [exact Hq|exact Eq].
  - intros i Hi Hil.
    destruct (calculateEMA_exact prices p (i - p) Hp) as [a [Ha Ea]]; [lia|].
    destruct (calculateEMA_exact prices p (S (i - p)) Hp) as [b [Hb Eb]];
      [lia|].
    replace (p - 1 + (i - p))%nat with (i - 1)%nat in Ha by lia.
    replace (p - 1 + S (i - p))%nat with i in Hb by lia.
    exists a, b. split; [exact Ha|]. split; [exact Hb|].
    rewrite Eb, Ea. cbn [emaOf].
    replace (p + (i - p))%nat with i by lia. reflexivity.
Qed.

(** X27.  With [1 <= fast <= slow] the MACD line is null before index
    [slow - 1] and from there on the fast EMA of the closes minus their
    slow EMA. *)
Theorem X27_macdLine_spec (data : list StockData) (fast slow sp i : nat) :
  (1 <= fast)%nat -> (fast <= slow)%nat -> (i < length data)%nat ->
  let r := calculateMACD data fast slow sp in
  ((i < slow - 1)%nat -> nth_error (macdLine r) i = Some None) /\
  ((slow - 1 <= i)%nat ->
   exists q,
     nth_error (macdLine r) i = Some (Some (Num q)) /\
     q == emaOf (closes data) fast (i - (fast - 1))
          - emaOf (closes data) slow (i - (slow - 1))).
Proof.
  intros Hf Hs Hl r. split.
  - intros W. apply macdLine_null; assumption.
  - intros G. unfold r. rewrite macdLine_nth by exact Hl. cbn zeta.
    assert (B : (i <? slow - 1)%nat = false) by (apply Nat.ltb_ge; exact G).
    rewrite B.
    assert (C : map (fun d => Num (close d)) data = map Num (closes data)).
    { unfold closes. rewrite map_map. reflexivity. }
    rewrite C.
    assert (Lc : length (closes data) = length data)
      by (unfold closes; apply length_map).
    destruct (calculateEMA_exact (closes data) fast (i - (fast - 1)) Hf)
      as [qf [Ef Qf]]; [lia|].
    destruct (calculateEMA_exact (closes data) slow (i - (slow - 1)))
      as [qs [Es Qs]]; [lia|lia|].
    replace (fast - 1 + (i - (fast - 1)))%nat with i in Ef by lia.
    replace (slow - 1 + (i - (slow - 1)))%nat with i in Es by lia.
    rewrite (cellAt_nth_error _ _ _ Ef), (cellAt_nth_error _ _ _ Es).
    cbn [jsub]. exists (qf - qs). split; [reflexivity|].
    rewrite Qf, Qs. reflexivity.
Qed.

(** * The further properties at concrete inputs *)

(** X1 on the closes 1, 2, 4, 3 with the period 2, at index 1. *)
Lemma X1_calculateSMA_between_witness :
  exists v,
    nth_error (calculateSMA fourBars 2) 1 = Some (Some v) /\
    1 <= v /\ v <= 2.
Proof.
  eexists. split; [vm_compute; reflexivity|].
  apply (X1_calculateSMA_between fourBars 2 1 _ 1 2).
  - lia.
  - vm_compute. reflexivity.
  - repeat constructor; intros D; discriminate D.
Defined.

(** X2 on the closes 1, 3 with the period 2 and the multiplier 2. *)
Lemma X2_bollinger_symmetric_witness :
  exists mid up lo,
    nth_error (middle (calculateBollingerBands sqrtFloor twoBars 2 2)) 1
    = Some (Some mid) /\
    nth_error (upper (calculateBollingerBands sqrtFloor twoBars 2 2)) 1
    = Some (Some up) /\
    nth_error (lower (calculateBollingerBands sqrtFloor twoBars 2 2)) 1
    = Some (Some lo) /\
    up + lo == 2 * mid.
Proof.
  eexists. eexists. eexists.
  split; [vm_compute; reflexivity|].
  split; [vm_compute; reflexivity|].
  split; [vm_compute; reflexivity|].
  apply (X2_bollinger_symmetric sqrtFloor twoBars 2 1 2);
    vm_compute; reflexivity.
Defined.


(** X4 on the closes 5, 4, 4, 3 with the period 2. *)
Lemma X4_calculateRSI_no_gain_witness :
  exists v,
    nth_error (calculateRSI fallingBars 2) 3 = Some (Some v) /\ v == 0.
Proof.
  eexists. split; [vm_compute; reflexivity|].
  apply (X4_calculateRSI_no_gain fallingBars 2 3).
  - lia.
  - repeat constructor; intros D; discriminate D.
  - vm_compute. reflexivity.
Defined.

(** X5 on two prices with the period 3. *)
Lemma X5_calculateEMA_short_witness :
  calculateEMA [Num 1; Num 2] 3 = [None; None; Some NaN].
Proof.
  apply (proj2 (X5_calculateEMA_short [Num 1; Num 2] 3)). simpl. lia.
Defined.

(** X6 on the prices 1, 3, 2 with the period 2, at index 2. *)
Lemma X6_calculateEMA_between_witness :
  exists q,
    nth_error (calculateEMA threePrices 2) 2 = Some (Some (Num q)) /\
    1 <= q /\ q <= 3.
Proof.
  apply (proj2 (X6_calculateEMA_between 1 3 threePrices 2 2
                  ltac:(lia)
                  ltac:(repeat constructor; intros D; discriminate D)
                  ltac:(simpl; lia))).
  simpl. lia.
Defined.

(** X8 on six bars with the slow period 26. *)
Lemma X8_calculateMACD_short_witness :
  Forall (fun c => c = None) (macdLine (calculateMACD sixBars 12 26 9)) /\
  Forall (fun c => c = None) (signalLine (calculateMACD sixBars 12 26 9)) /\
  Forall (fun c => c = None) (histogram (calculateMACD sixBars 12 26 9)).
Proof.
  apply (X8_calculateMACD_short sixBars 12 26 9). simpl. lia.
Defined.

(** X9 on five bars closing at 7 with the periods 1, 2, 2. *)
Lemma X9_calculateMACD_flat_witness :
  Forall (nullOrInRange 0 0) (macdLine (calculateMACD flatBars 1 2 2)) /\
  Forall (nullOrInRange 0 0) (signalLine (calculateMACD flatBars 1 2 2)) /\
  Forall (nullOrInRange 0 0) (histogram (calculateMACD flatBars 1 2 2)).
Proof.
  apply (X9_calculateMACD_flat flatBars 1 2 2 7); try lia.
  intros d H. simpl in H.
  repeat (destruct H as [<-|H]; [reflexivity|]). contradiction.
Defined.

(** X10 on 200 bars showing [[50, 150]], zooming in at the middle. *)
Lemma X10_wheel_keeps_anchor_witness :
  anchorIndex (handleWheel wheelIn range50to150) (anchorRatio wheelIn)
  == anchorIndex range50to150 (anchorRatio wheelIn).
Proof.
  apply (X10_wheel_keeps_anchor wheelIn range50to150).
  unfold unclamped. vm_compute. repeat split; intros D; discriminate D.
Defined.

(** X11 on 8 bars at the full range. *)
Lemma X11_wheel_out_at_full_range_witness :
  fst (domainNow (handleWheel wheelOut (initialState (risingBars 8)))) == 0 /\
  snd (domainNow (handleWheel wheelOut (initialState (risingBars 8))))
  == barCount (initialState (risingBars 8)) - 1.
Proof.
  apply (X11_wheel_out_at_full_range wheelOut (initialState (risingBars 8))).
  - simpl. lia.
  - reflexivity.
  - reflexivity.
  - reflexivity.
  - vm_compute. intros D. discriminate D.
Defined.

(** X12 on 8 bars zoomed in to [[1, 6]]. *)
Lemma X12_wheel_in_at_minimum_witness :
  fst (domainNow (handleWheel wheelIn zoomedIn)) == fst (domainNow zoomedIn)
  /\
  snd (domainNow (handleWheel wheelIn zoomedIn)) == snd (domainNow zoomedIn).
Proof.
  apply (X12_wheel_in_at_minimum wheelIn zoomedIn).
  - unfold validDomain. vm_compute. repeat split; intros D; discriminate D.
  - vm_compute. reflexivity.
  - vm_compute. intros D. discriminate D.
Defined.

(** X13 on a pan of 200 bars showing [[50, 150]]. *)
Lemma X13_drag_keeps_width_witness :
  domainWidth (handleMouseMove (mouseAt 300 100 0) panning)
  == domainWidth panning.
Proof.
  apply (X13_drag_keeps_width (mouseAt 300 100 0) panning).
  unfold validDomain. vm_compute. repeat split; intros D; discriminate D.
Defined.

(** X14 on 200 bars showing [[50, 150]]. *)
Lemma X14_arrow_pans_witness :
  fst (domainNow (handleKeyDown "ArrowLeft" range50to150))
  == Qmax 0 (50 - (150 - 50) * (1 # 10)) /\
  domainWidth (handleKeyDown "ArrowLeft" range50to150) == 150 - 50.
Proof.
  refine (proj1 (X14_arrow_pans range50to150 (50, 150) eq_refl _)).
  unfold validDomain. vm_compute. repeat split; intros D; discriminate D.
Defined.

(** X15 on 200 bars showing [[50, 150]]. *)
Lemma X15_arrow_round_trip_witness :
  fst (domainNow (handleKeyDown "ArrowRight"
                    (handleKeyDown "ArrowLeft" range50to150))) == 50 /\
  snd (domainNow (handleKeyDown "ArrowRight"
                    (handleKeyDown "ArrowLeft" range50to150))) == 150.
Proof.
  refine (proj1 (X15_arrow_round_trip range50to150 (50, 150) eq_refl _) _).
  - unfold validDomain. vm_compute. repeat split; intros D; discriminate D.
  - vm_compute. intros D. discriminate D.
Defined.

(** X16 on 200 bars showing [[50, 150]]. *)
Lemma X16_key_zoom_in_witness :
  domainMid (handleKeyDown "+" range50to150) == domainMid range50to150 /\
  domainWidth (handleKeyDown "+" range50to150)
  == (8 # 10) * domainWidth range50to150.
Proof.
  refine (X16_key_zoom_in "+" range50to150 (50, 150) _ eq_refl _).
  - left. reflexivity.
  - unfold validDomain. vm_compute. repeat split; intros D; discriminate D.
Defined.

(** X18 on 30 bars in the trendline mode. *)
Lemma X18_gesture_commits_one_line_witness :
  length (drawingLines
            (run trendMode [MouseDown (mouseAt 100 100 0);
                            MouseMove (mouseAt 300 200 0);
                            MouseUp (mouseAt 300 200 7)])) = 1%nat /\
  drawingStart (run trendMode [MouseDown (mouseAt 100 100 0);
                               MouseMove (mouseAt 300 200 0);
                               MouseUp (mouseAt 300 200 7)]) = None.
Proof.
  destruct (X18_gesture_commits_one_line trendMode trendline
              (mouseAt 100 100 0) (mouseAt 300 200 0) (mouseAt 300 200 7)
              chart800 chart800 eq_refl eq_refl eq_refl) as [L [S0 _]].
  split; [rewrite L; reflexivity|exact S0].
Defined.

(** X19 on 30 bars in the trendline mode. *)
Lemma X19_click_commits_nothing_witness :
  drawingLines (run trendMode [MouseDown (mouseAt 100 100 0);
                               MouseUp (mouseAt 100 100 7)])
  = drawingLines trendMode.
Proof.
  exact (proj1 (X19_click_commits_nothing trendMode trendline
                  (mouseAt 100 100 0) (mouseAt 100 100 7) chart800
                  eq_refl eq_refl)).
Defined.

(** X20 on 200 bars showing [[50, 150]], pointer at (100, 100). *)
Lemma X20_pointer_inside_chart_witness :
  0 <= price (pointerPoint range50to150 chart800 (mouseAt 100 100 0)) /\
  price (pointerPoint range50to150 chart800 (mouseAt 100 100 0)) <= 1000.
Proof.
  refine (proj2 (X20_pointer_inside_chart range50to150 chart800
                   (mouseAt 100 100 0) _ _ _ _ _ _ _));
    vm_compute; first [reflexivity | intros D; discriminate D].
Defined.

(** X21 on two gestures in a row. *)
Lemma X21_colours_cycle_witness :
  coloursByPosition
    (drawingLines (run (initialState (risingBars 30))
                       (horizontalGesture ++ horizontalGesture))).
Proof.
  apply (X21_colours_cycle (risingBars 30)
                           (horizontalGesture ++ horizontalGesture)).
  repeat constructor.
Defined.

(** X23 on 30 bars and the domain [[5/2, 37/4]]. *)
Lemma X23_visible_slice_witness :
  length (visibleSlice (risingBars 30) (5 # 2) (37 # 4)) = 9%nat /\
  (6 <= length (visibleSlice (risingBars 30) (5 # 2) (37 # 4)))%nat.
Proof.
  assert (H0 : 0 <= 5 # 2) by (intros D; discriminate D).
  assert (H1 : 5 # 2 <= 37 # 4) by (intros D; discriminate D).
  assert (H2 : 37 # 4 <= num (length (risingBars 30)) - 1)
    by (vm_compute; intros D; discriminate D).
  pose proof (X23_visible_slice (risingBars 30) (5 # 2) (37 # 4) H0 H1 H2)
    as T.
  cbn zeta in T. destruct T as [L [_ W]].
  split; [exact L|]. apply W. vm_compute. intros D. discriminate D.
Defined.

(** X24 on 200 bars showing [[50, 150]]. *)
Lemma X24_key_zoom_in_out_witness :
  domainWidth (handleKeyDown "-" (handleKeyDown "+" range50to150))
  == (96 # 100) * domainWidth range50to150.
Proof.
  refine (proj2 (X24_key_zoom_in_out range50to150 (50, 150) eq_refl _)).
  unfold validDomain. vm_compute. repeat split; intros D; discriminate D.
Defined.

(** X25 on a pan begun at x = 100 and dragged to x = 300. *)
Lemma X25_drag_direction_witness :
  fst (domainNow (handleMouseMove (mouseAt 300 100 0) panning)) <= 50 /\
  snd (domainNow (handleMouseMove (mouseAt 300 100 0) panning)) <= 150.
Proof.
  refine (proj1 (proj2 (X25_drag_direction (mouseAt 300 100 0) panning
                          100 (50, 150) chart800
                          eq_refl eq_refl eq_refl eq_refl _ eq_refl _)) _).
  - unfold validDomain. vm_compute. repeat split; intros D; discriminate D.
  - vm_compute. intros D. discriminate D.
  - vm_compute. intros D. discriminate D.
Defined.

(** X26 on the prices 1, 2, 4, 8 with the period 2. *)
Lemma X26_calculateEMA_recurrence_witness :
  exists q,
    nth_error (calculateEMA (map Num fourPrices) 2) 1 = Some (Some (Num q))
    /\ q == mean (firstn 2 fourPrices).
Proof.
  refine (proj1 (proj2 (X26_calculateEMA_recurrence fourPrices 2 _ _)));
    simpl; lia.
Defined.

(** X27 on the closes 1, 2, 4, 8, 16, 32 with the periods 1, 2, 2. *)
Lemma X27_macdLine_spec_witness :
  exists q,
    nth_error (macdLine (calculateMACD sixBars 1 2 2)) 2
    = Some (Some (Num q)) /\
    q == emaOf (closes sixBars) 1 (2 - (1 - 1))
         - emaOf (closes sixBars) 2 (2 - (2 - 1)).
Proof.
  refine (proj2 (X27_macdLine_spec sixBars 1 2 2 2 _ _ _) _);
    simpl; lia.
Defined.
